(** * Redstone circuits of bravo: [bravo/utilities/redstone.py]

    A shallow embedding of the block/circuit codec ([truthify_block],
    [bbool]), of the circuit classes ([Wire], [PlainBlock], [Torch],
    [Lever]) with their connectivity generators, of [Circuit.connect],
    [Circuit.disconnect] and [Circuit.update] over an explicit object store,
    and of the breadth-first search [Asic.find_wires]. *)

From stdpp Require Import gmap strings list fin_maps relations.
From Stdlib Require Import ZArith Lia.

#[local] Set Warnings "-clear-no-such-hyp".

Open Scope Z_scope.

(** ** The block/circuit codec *)

Section codec.

(** [blocks["..."].slot]: the block table lives in [bravo.blocks]; its four
    slot numbers are taken as parameters. *)
Variables redstone_torch redstone_torch_off redstone_wire lever : Z.

(** [truthify_block(truth, block, metadata)].  Python's [~0x8] on unbounded
    integers is [Z.lnot 8]; [metadata if metadata else 0xf] tests the
    integer against zero. *)
Definition truthify_block (truth : bool) (block metadata : Z) : Z * Z :=
  if (block =? redstone_torch) || (block =? redstone_torch_off) then
    if truth then (redstone_torch, metadata)
    else (redstone_torch_off, metadata)
  else if block =? redstone_wire then
    if truth then (block, if metadata =? 0 then 15 else metadata)
    else (block, 0)
  else if block =? lever then
    if truth then (block, Z.lor metadata 8)
    else (block, Z.land metadata (Z.lnot 8))
  else (block, metadata).

(** [bbool(block, metadata)]; [bool(n)] is [n != 0]. *)
Definition bbool (block metadata : Z) : bool :=
  if block =? redstone_torch then true
  else if block =? redstone_torch_off then false
  else if block =? redstone_wire then negb (metadata =? 0)
  else if block =? lever then negb (Z.land metadata 8 =? 0)
  else false.

(** The four kinds of block the codec handles. *)
Definition handled (block : Z) : Prop :=
  block = lever ∨ block = redstone_wire ∨
  block = redstone_torch ∨ block = redstone_torch_off.

(** The block table gives different blocks different slots. *)
Definition distinct_slots : Prop :=
  NoDup [redstone_torch; redstone_torch_off; redstone_wire; lever].

End codec.

(** ** Circuits *)

(** A coordinate [(x, y, z)]; an object identity (Python compares circuits
    with [is] and hashes them by identity). *)
Abbreviation coord := (Z * Z * Z)%type.
Abbreviation oid := positive.

(** The classes [Wire], [PlainBlock], [Torch] and [Lever].  The two
    [OrientedCircuit] subclasses carry [self.orientation], the string that
    [blocks[block].face(metadata)] returned. *)
Inductive kind :=
| Wire
| PlainBlock
| Torch (orientation : string)
| Lever (orientation : string).

(** The class attribute [name]. *)
Definition name (k : kind) : string :=
  match k with
  | Wire => "wire"
  | PlainBlock => "plain"
  | Torch _ => "torch"
  | Lever _ => "lever"
  end.

(** The class attribute [traceables]. *)
Definition traceables (k : kind) : list string :=
  match k with
  | Wire => ["plain"]
  | PlainBlock => ["torch"]
  | Torch _ => ["wire"]
  | Lever _ => ["plain"]
  end.

(** The instance attributes of a [Circuit]; [inputs] and [outputs] are sets
    of references to other circuits. *)
Record Circuit := mkCircuit {
  coords : coord;
  cls : kind;
  status : bool;
  inputs : gset oid;
  outputs : gset oid
}.

(** [Circuit.__init__]: empty edge sets; [from_block] stores
    [bbool(block, metadata)] in [status], passed here as [st]. *)
Definition new_circuit (k : kind) (xyz : coord) (st : bool) : Circuit :=
  mkCircuit xyz k st ∅ ∅.

(** [Circuit.iter_inputs] and [Circuit.iter_outputs]: the four horizontal
    neighbours, in the order of the source's tuple of offsets. *)
Definition horizontal (xyz : coord) : list coord :=
  let '(x, y, z) := xyz in
  map (λ '(dx, dy, dz), (x + dx, y + dy, z + dz))
      [(-1, 0, 0); (1, 0, 0); (0, 0, -1); (0, 0, 1)].

(** The [if orientation == ... elif ...] chain shared by [Torch.iter_inputs]
    and [Lever.iter_outputs]: the block the circuit is mounted on. *)
Definition mounted_on (orientation : string) (xyz : coord) : list coord :=
  let '(x, y, z) := xyz in
  if String.eqb orientation "+x" then [(x - 1, y, z)]
  else if String.eqb orientation "-x" then [(x + 1, y, z)]
  else if String.eqb orientation "+z" then [(x, y, z - 1)]
  else if String.eqb orientation "-z" then [(x, y, z + 1)]
  else if String.eqb orientation "+y" then [(x, y - 1, z)]
  else [].

(** [Torch.iter_outputs]: the same chain with [!=] in place of [==]. *)
Definition torch_outputs (orientation : string) (xyz : coord) : list coord :=
  let '(x, y, z) := xyz in
  if negb (String.eqb orientation "+x") then [(x - 1, y, z)]
  else if negb (String.eqb orientation "-x") then [(x + 1, y, z)]
  else if negb (String.eqb orientation "+z") then [(x, y, z - 1)]
  else if negb (String.eqb orientation "-z") then [(x, y, z + 1)]
  else if negb (String.eqb orientation "+y") then [(x, y - 1, z)]
  else [].

(** Method dispatch of [iter_inputs]; [Lever.iter_inputs] returns [()]. *)
Definition iter_inputs (c : Circuit) : list coord :=
  match cls c with
  | Wire | PlainBlock => horizontal (coords c)
  | Torch o => mounted_on o (coords c)
  | Lever _ => []
  end.

(** Method dispatch of [iter_outputs]. *)
Definition iter_outputs (c : Circuit) : list coord :=
  match cls c with
  | Wire | PlainBlock => horizontal (coords c)
  | Torch o => torch_outputs o (coords c)
  | Lever o => mounted_on o (coords c)
  end.

(** ** The object store and the Asic *)

(** [objs] is the store of circuit objects, [circuits] the dictionary
    [asic.circuits] from coordinates to circuit objects. *)
Record state := mkState {
  objs : gmap oid Circuit;
  circuits : gmap coord oid
}.

(** [Asic.__init__], with no circuit constructed yet. *)
Definition empty_asic : state := mkState ∅ ∅.

(** The object behind a reference.  A running program only holds references
    to objects it has constructed; an identity outside the store reads as an
    unconnected placeholder. *)
Definition blank : Circuit := new_circuit PlainBlock (0, 0, 0) false.

Definition deref (σ : state) (i : oid) : Circuit :=
  default blank (objs σ !! i).

Definition upd (i : oid) (f : Circuit → Circuit) (σ : state) : state :=
  mkState (<[i := f (deref σ i)]> (objs σ)) (circuits σ).

Definition with_inputs (s : gset oid) (c : Circuit) : Circuit :=
  mkCircuit (coords c) (cls c) (status c) s (outputs c).

Definition with_outputs (s : gset oid) (c : Circuit) : Circuit :=
  mkCircuit (coords c) (cls c) (status c) (inputs c) s.

Definition with_status (st : bool) (c : Circuit) : Circuit :=
  mkCircuit (coords c) (cls c) st (inputs c) (outputs c).

(** [i.inputs.add(x)], [i.outputs.add(x)], [i.inputs.discard(x)],
    [i.outputs.discard(x)]. *)
Definition inputs_add (i x : oid) : state → state :=
  upd i (λ c, with_inputs (inputs c ∪ {[x]}) c).

Definition outputs_add (i x : oid) : state → state :=
  upd i (λ c, with_outputs (outputs c ∪ {[x]}) c).

Definition inputs_discard (i x : oid) : state → state :=
  upd i (λ c, with_inputs (inputs c ∖ {[x]}) c).

Definition outputs_discard (i x : oid) : state → state :=
  upd i (λ c, with_outputs (outputs c ∖ {[x]}) c).

(** Exceptions: [RedstoneError] with its message, and the [TypeError] of a
    call with the wrong number of arguments. *)
Inductive exn :=
| RedstoneError (msg : string)
| TypeError.

Definition Occupied : exn := RedstoneError "Circuit trace already occupied!".
Definition NotAttached : exn := RedstoneError "Circuit can't detach from ASIC!".
Definition Mismatch : exn :=
  RedstoneError "Circuit can't detach another circuit!".

(** What a call does besides changing the state. *)
Inductive outcome (A : Type) :=
| Returns (a : A)
| Raises (e : exn).
Arguments Returns {A} a.
Arguments Raises {A} e.

(** Body of the first loop of [connect]. *)
Definition connect_input (self : oid) (σ : state) (xyz : coord) : state :=
  match circuits σ !! xyz with
  | None => σ
  | Some target =>
      if bool_decide (name (cls (deref σ self))
                        ∈ traceables (cls (deref σ target)))
      then outputs_add target self (inputs_add self target σ)
      else σ
  end.

(** Body of the second loop of [connect]. *)
Definition connect_output (self : oid) (σ : state) (xyz : coord) : state :=
  match circuits σ !! xyz with
  | None => σ
  | Some target =>
      if bool_decide (name (cls (deref σ target))
                        ∈ traceables (cls (deref σ self)))
      then outputs_add self target (inputs_add target self σ)
      else σ
  end.

(** [Circuit.connect(self, asic)]. *)
Definition connect (self : oid) (σ : state) : state * outcome unit :=
  let c := deref σ self in
  match circuits σ !! coords c with
  | Some other =>
      if bool_decide (other ≠ self) then (σ, Raises Occupied)
      else
        let σ0 := mkState (objs σ) (<[coords c := self]> (circuits σ)) in
        let σ1 := foldl (connect_input self) σ0 (iter_inputs c) in
        let σ2 := foldl (connect_output self) σ1 (iter_outputs c) in
        (σ2, Returns tt)
  | None =>
      let σ0 := mkState (objs σ) (<[coords c := self]> (circuits σ)) in
      let σ1 := foldl (connect_input self) σ0 (iter_inputs c) in
      let σ2 := foldl (connect_output self) σ1 (iter_outputs c) in
      (σ2, Returns tt)
  end.

(** [Circuit.disconnect(self, asic)].  Each loop runs over the set as it is
    when the loop starts. *)
Definition disconnect (self : oid) (σ : state) : state * outcome unit :=
  let c := deref σ self in
  match circuits σ !! coords c with
  | None => (σ, Raises NotAttached)
  | Some other =>
      if bool_decide (other ≠ self) then (σ, Raises Mismatch)
      else
        let σ1 := foldl (λ s circuit, outputs_discard circuit self s)
                        σ (elements (inputs (deref σ self))) in
        let σ2 := foldl (λ s circuit, inputs_discard circuit self s)
                        σ1 (elements (outputs (deref σ1 self))) in
        let σ3 := upd self (with_inputs ∅) σ2 in
        let σ4 := upd self (with_outputs ∅) σ3 in
        (mkState (objs σ4) (delete (coords c) (circuits σ4)), Returns tt)
  end.

(** [self.op] applied to the unpacked list of input statuses: [any] for wires and plain blocks; [operator.not_],
    which takes exactly one argument, for torches; [Lever.op]. *)
Definition op (c : Circuit) (args : list bool) : outcome bool :=
  match cls c with
  | Wire | PlainBlock => Returns (existsb id args)
  | Torch _ =>
      match args with
      | [a] => Returns (negb a)
      | _ => Raises TypeError
      end
  | Lever _ =>
      match args with
      | [] => Returns (status c)
      | _ => Raises (RedstoneError "Levers don't take inputs!")
      end
  end.

(** [Circuit.update(self)].  The value returned is the collection of
    circuits to visit next: the empty tuple [()] is the empty collection. *)
Definition update (self : oid) (σ : state) : state * outcome (gset oid) :=
  let c := deref σ self in
  if decide (inputs c = ∅) then (σ, Returns ∅)
  else
    match op c (map (λ i, status (deref σ i)) (elements (inputs c))) with
    | Raises e => (σ, Raises e)
    | Returns st =>
        if negb (eqb (status c) st)
        then (upd self (with_status st) σ, Returns (outputs c))
        else (σ, Returns ∅)
    end.

(** ** [Asic.find_wires] *)

(** The result of a loop run with a bound on its iterations. *)
Inductive result (A : Type) :=
| Done (a : A)
| OutOfFuel.
Arguments Done {A} a.
Arguments OutOfFuel {A}.

(** Body of the [for neighbor in chain(...)] loop.  The deque is a list
    whose head is the right end: [d.appendleft(c)] is [d ++ [c]] and
    [d.pop()] takes the head. *)
Definition visit (σ : state) (wires : gset oid) (d : list oid)
    (neighbor : coord) : list oid :=
  match circuits σ !! neighbor with
  | None => d
  | Some circuit =>
      if bool_decide (name (cls (deref σ circuit)) = "wire")
         && bool_decide (circuit ∉ wires)
      then d ++ [circuit]
      else d
  end.

(** Body of the [while d:] loop for the popped circuit [w]: the deque after
    the [for] loop, and [wires] after [wires.add(w)]. *)
Definition search_body (σ : state) (w : oid) (d : list oid)
    (wires : gset oid) : list oid * gset oid :=
  (foldl (visit σ wires) d
         (iter_inputs (deref σ w) ++ iter_outputs (deref σ w)),
   wires ∪ {[w]}).

(** The [while d:] loop, at most [fuel] iterations. *)
Fixpoint search (fuel : nat) (σ : state) (d : list oid) (wires : gset oid)
    : result (gset oid) :=
  match fuel with
  | O => OutOfFuel
  | S fuel' =>
      match d with
      | [] => Done wires
      | w :: d' =>
          let '(d'', wires') := search_body σ w d' wires in
          search fuel' σ d'' wires'
      end
  end.

(** The deque and [wires] after [n] iterations of the loop (fewer if the
    deque empties first). *)
Fixpoint queue_after (n : nat) (σ : state) (d : list oid) (wires : gset oid)
    : list oid * gset oid :=
  match n with
  | O => (d, wires)
  | S n' =>
      match d with
      | [] => (d, wires)
      | w :: d' =>
          let '(d'', wires') := search_body σ w d' wires in
          queue_after n' σ d'' wires'
      end
  end.

(** [Asic.find_wires(self, x, y, z)]; [None] is Python's [None]. *)
Definition find_wires (fuel : nat) (σ : state) (xyz : coord)
    : result (option (gset oid)) :=
  match circuits σ !! xyz with
  | None => Done None
  | Some root =>
      if bool_decide (name (cls (deref σ root)) ≠ "wire") then Done None
      else
        match search fuel σ [root] {[root]} with
        | Done wires => Done (Some wires)
        | OutOfFuel => OutOfFuel
        end
  end.

(** ** Programs over one Asic *)

(** A caller constructs circuits and attaches or detaches circuits it has
    constructed; a call that raises leaves the caller with the state the
    call left behind. *)
Inductive command :=
| New (k : kind) (xyz : coord) (st : bool)
| Connect (c : oid)
| Disconnect (c : oid).

Definition exec (σ : state) (cmd : command) : state :=
  match cmd with
  | New k xyz st =>
      mkState (<[fresh (dom (objs σ)) := new_circuit k xyz st]> (objs σ))
              (circuits σ)
  | Connect c =>
      if decide (is_Some (objs σ !! c)) then (connect c σ).1 else σ
  | Disconnect c =>
      if decide (is_Some (objs σ !! c)) then (disconnect c σ).1 else σ
  end.

Definition run (prog : list command) : state := foldl exec empty_asic prog.

(** A circuit is stored in the Asic when some coordinate maps to it. *)
Definition stored (σ : state) (c : oid) : Prop :=
  ∃ xyz, circuits σ !! xyz = Some c.

(** The edge [a → b]: [a] is an input of [b] and [b] an output of [a]. *)
Definition edge (σ : state) (a b : oid) : Prop :=
  a ∈ inputs (deref σ b) ∧ b ∈ outputs (deref σ a).

(** Horizontal wire-to-wire adjacency: [v] is a wire stored at one of the
    four horizontal neighbours of the wire [u]. *)
Definition is_wire (σ : state) (c : oid) : Prop :=
  cls (deref σ c) = Wire.

Definition wire_adjacent (σ : state) (u v : oid) : Prop :=
  is_wire σ u ∧ is_wire σ v ∧
  ∃ xyz, xyz ∈ horizontal (coords (deref σ u)) ∧ circuits σ !! xyz = Some v.

(** The invariants kept by [connect] and [disconnect]: edges are recorded
    at both ends, and an edge [a → b] is one that [a]'s class traces to. *)
Definition symmetric (σ : state) : Prop :=
  ∀ a b, a ∈ inputs (deref σ b) ↔ b ∈ outputs (deref σ a).

Definition traced (σ : state) : Prop :=
  ∀ a b, a ∈ inputs (deref σ b) →
         name (cls (deref σ b)) ∈ traceables (cls (deref σ a)).

(** Wires reachable from [root] through wire-to-wire adjacency. *)
Definition wire_group (σ : state) (root c : oid) : Prop :=
  rtc (wire_adjacent σ) root c.


(** ** Sample programs *)

(** A plain block, a torch mounted on its east face and a wire east of the
    torch. *)
Definition torch_on_block : state :=
  run [New PlainBlock (0, 0, 0) false; New (Torch "+x") (1, 0, 0) false;
       New Wire (2, 0, 0) false;
       Connect 1%positive; Connect 3%positive; Connect 2%positive].

(** A torch attached first, then two plain blocks beside it, neither of them
    the block [(-1, 0, 0)] the torch is mounted on. *)
Definition torch_then_blocks : state :=
  run [New (Torch "+x") (0, 0, 0) true; New PlainBlock (1, 0, 0) false;
       New PlainBlock (0, 0, 1) false;
       Connect 1%positive; Connect 2%positive; Connect 3%positive].

(** A row of three wires and a plain block at its end. *)
Definition wire_row : state :=
  run [New Wire (0, 0, 0) false; New Wire (1, 0, 0) false;
       New Wire (2, 0, 0) false; New PlainBlock (3, 0, 0) false;
       Connect 1%positive; Connect 2%positive; Connect 3%positive;
       Connect 4%positive].

(** The same three circuits with the plain blocks attached before the
    torch. *)
Definition blocks_then_torch : state :=
  run [New (Torch "+x") (0, 0, 0) true; New PlainBlock (1, 0, 0) false;
       New PlainBlock (0, 0, 1) false;
       Connect 2%positive; Connect 3%positive; Connect 1%positive].

(** The wires found by the two neighbour scans of [c], one entry per scan
    that finds a wire: the adjacent edges of [c], each counted in both
    directions. *)
Definition adjacent_wires (σ : state) (c : oid) : list oid :=
  filter (λ v, name (cls (deref σ v)) = "wire")
    (omap (λ nb, circuits σ !! nb)
          (iter_inputs (deref σ c) ++ iter_outputs (deref σ c))).

(** ** Measures of the search loop *)

(** The circuits stored in the Asic, and the entries of the deque that are
    already in [wires]. *)
Definition stored_set (σ : state) : gset oid := map_img (circuits σ).

Definition stale (wires : gset oid) (d : list oid) : list oid :=
  filter (λ c, c ∈ wires) d.

(** What the search loop keeps true, for the search started at [root]:
    [root] is recorded, every recorded or queued circuit is a wire of
    [root]'s group, and a recorded wire is still queued or has all its
    adjacent wires recorded or queued. *)
Definition search_inv (σ : state) (root : oid) (d : list oid)
    (wires : gset oid) : Prop :=
  root ∈ wires ∧
  (∀ x, x ∈ wires ∨ x ∈ d → is_wire σ x ∧ wire_group σ root x) ∧
  (∀ u, u ∈ wires →
        u ∈ d ∨ ∀ v, wire_adjacent σ u v → v ∈ wires ∨ v ∈ d).

(** ** Further invariants of the Asic *)

(** A circuit is stored under its own coordinates. *)
Definition keyed (σ : state) : Prop :=
  ∀ xyz c, circuits σ !! xyz = Some c → coords (deref σ c) = xyz.

(** Both ends of an edge are stored in the Asic. *)
Definition anchored (σ : state) : Prop :=
  ∀ a b, a ∈ inputs (deref σ b) → stored σ a ∧ stored σ b.

(** An edge [a → b] was found by one of the two scans of [connect]: [a]
    sits at a coordinate of [b]'s input scan, or [b] at a coordinate of
    [a]'s output scan. *)
Definition scanned (σ : state) : Prop :=
  ∀ a b, a ∈ inputs (deref σ b) →
         coords (deref σ a) ∈ iter_inputs (deref σ b) ∨
         coords (deref σ b) ∈ iter_outputs (deref σ a).

(** Every circuit the map holds is an object of the store. *)
Definition closed (σ : state) : Prop :=
  ∀ xyz c, circuits σ !! xyz = Some c → is_Some (objs σ !! c).

(** Two coordinates are next to each other: they differ by one along
    exactly one axis. *)
Definition next_to (p q : coord) : Prop :=
  let '(x, y, z) := p in
  let '(x', y', z') := q in
  Z.abs (x - x') + Z.abs (y - y') + Z.abs (z - z') = 1.

(** The torch-on-block circuits with a second, unattached wire constructed
    at the torch's coordinates. *)
Definition torch_on_block_spare : state :=
  run [New PlainBlock (0, 0, 0) false; New (Torch "+x") (1, 0, 0) false;
       New Wire (2, 0, 0) false; New Wire (1, 0, 0) false;
       Connect 1%positive; Connect 3%positive; Connect 2%positive].

(** A lever mounted on the east face of a plain block. *)
Definition lever_on_block : state :=
  run [New (Lever "+x") (1, 0, 0) true; New PlainBlock (0, 0, 0) false;
       Connect 1%positive; Connect 2%positive].

(** The row of three wires with the plain block constructed but not yet
    attached. *)
Definition wire_row_spare : state :=
  run [New Wire (0, 0, 0) false; New Wire (1, 0, 0) false;
       New Wire (2, 0, 0) false; New PlainBlock (3, 0, 0) false;
       Connect 1%positive; Connect 2%positive; Connect 3%positive].

(** The plain block and the wire of [torch_on_block] before the torch is
    attached. *)
Definition block_and_wire : state :=
  run [New PlainBlock (0, 0, 0) false; New (Torch "+x") (1, 0, 0) false;
       New Wire (2, 0, 0) false;
       Connect 1%positive; Connect 3%positive].

(** ** The codec as circuit methods *)

Section block_methods.

Variables redstone_torch redstone_torch_off redstone_wire lever : Z.

(** [Circuit.from_block(self, block, metadata)]. *)
Definition from_block (self : oid) (block metadata : Z) : state → state :=
  upd self (with_status
              (bbool redstone_torch redstone_torch_off redstone_wire lever
                     block metadata)).

(** [Circuit.to_block(self, block, metadata)]. *)
Definition to_block (self : oid) (block metadata : Z) (σ : state) : Z * Z :=
  truthify_block redstone_torch redstone_torch_off redstone_wire lever
    (status (deref σ self)) block metadata.

End block_methods.

(** ** [bravo/utilities/maths.py] on integers *)

(** [clamp(x, low, high)], the [def] that the module ends up binding. *)
Definition clamp (x low high : Z) : Z := Z.min (Z.max x low) high.

(** The [lambda] bound to [clamp] first and then replaced by the [def]. *)
Definition clamp_lambda (n minimum maximum : Z) : Z :=
  Z.max (Z.min maximum n) minimum.

(** The masks [b] and shifts [s] of [morton2], zipped. *)
Definition morton_steps : list (Z * Z) :=
  zip [0x00ff00ff; 0x0f0f0f0f; 0x33333333; 0x55555555] [8; 4; 2; 1].

(** [morton2(x, y)]. *)
Definition morton2 (x y : Z) : Z :=
  let gx := Z.land x 0xffff in
  let gy := Z.land y 0xffff in
  let '(gx, gy) :=
    foldl (λ '(gx, gy) '(i, j),
             (Z.land (Z.lor gx (Z.shiftl gx j)) i,
              Z.land (Z.lor gy (Z.shiftl gy j)) i))
          (gx, gy) morton_steps in
  Z.lor gx (Z.shiftl gy 1).

(** What the loop of [morton2] does to one of its two numbers. *)
Definition spread (g : Z) : Z :=
  foldl (λ g '(i, j), Z.land (Z.lor g (Z.shiftl g j)) i) g morton_steps.

(** Interleaving the bits of a number with zeros, by recursion on its
    binary digits: the reference that [spread] is compared with. *)
Fixpoint dilate_pos (p : positive) : positive :=
  match p with
  | xH => xH
  | xO p' => xO (xO (dilate_pos p'))
  | xI p' => xI (xO (dilate_pos p'))
  end.

Definition dilate (g : Z) : Z :=
  match g with
  | Zpos p => Zpos (dilate_pos p)
  | _ => 0
  end.

Definition spread_ok (g : Z) : bool :=
  (spread g =? dilate g) && (spread g <? 4294967296).

(** A check of [f] on the [n] integers from [z] up. *)
Fixpoint all_from (n : nat) (z : Z) (f : Z → bool) : bool :=
  match n with
  | O => true
  | S n' => f z && all_from n' (z + 1) f
  end.

(** ** The codec: proofs *)

Lemma lor_8_of_set m : Z.land m 8 ≠ 0 → Z.lor m 8 = m.
Proof.
  intros Hbit. apply Z.bits_inj'. intros n Hn.
  rewrite Z.lor_spec.
  destruct (Z.eq_dec n 3) as [->|Hne].
  - destruct (Z.testbit m 3) eqn:Hm; [reflexivity|].
    exfalso. apply Hbit. apply Z.bits_inj'. intros k Hk.
    rewrite Z.land_spec, Z.bits_0.
    destruct (Z.eq_dec k 3) as [->|Hk3].
    + now rewrite Hm.
    + change 8 with (2 ^ 3). rewrite Z.pow2_bits_eqb by lia.
      replace (3 =? k) with false by (symmetry; apply Z.eqb_neq; lia).
      apply andb_false_r.
  - change 8 with (2 ^ 3). rewrite Z.pow2_bits_eqb by lia.
    replace (3 =? n) with false by (symmetry; apply Z.eqb_neq; lia).
    apply orb_false_r.
Qed.

Lemma testbit_8 n : 0 ≤ n → Z.testbit 8 n = (3 =? n).
Proof. intros Hn. change 8 with (2 ^ 3). apply Z.pow2_bits_eqb. lia. Qed.

Lemma land_not8_of_clear m : Z.land m 8 = 0 → Z.land m (Z.lnot 8) = m.
Proof.
  intros Hbit. apply Z.bits_inj'. intros n Hn.
  rewrite Z.land_spec, Z.lnot_spec, testbit_8 by lia.
  destruct (Z.eqb_spec 3 n) as [<-|Hne].
  - assert (Z.testbit (Z.land m 8) 3 = false) as Hz
      by (rewrite Hbit; apply Z.bits_0).
    rewrite Z.land_spec, testbit_8 in Hz by lia.
    change (3 =? 3) with true in Hz.
    rewrite andb_true_r in Hz. rewrite Hz. reflexivity.
  - apply andb_true_r.
Qed.

(** C7. Codec round trip: for a block of one of the four handled kinds
    (lever, redstone wire, redstone torch, redstone torch off) and any
    metadata, [truthify_block(bbool(block, metadata), block, metadata)] is
    [(block, metadata)], whatever slot numbers the block table assigns. *)
Theorem codec_round_trip (torch torch_off wire lever block metadata : Z) :
  handled torch torch_off wire lever block →
  truthify_block torch torch_off wire lever
    (bbool torch torch_off wire lever block metadata) block metadata
  = (block, metadata).
Proof.
  intros _. unfold truthify_block, bbool.
  destruct (Z.eqb_spec block torch) as [->|Ht]; [reflexivity|].
  destruct (Z.eqb_spec block torch_off) as [->|Hf]; [reflexivity|].
  destruct (Z.eqb_spec block wire) as [->|Hw]; simpl.
  - destruct (Z.eqb_spec metadata 0) as [->|Hm]; simpl; [reflexivity|].
    destruct (Z.eqb_spec metadata 0); [contradiction|reflexivity].
  - destruct (Z.eqb_spec block lever) as [->|Hl]; [|reflexivity].
    destruct (Z.eqb_spec (Z.land metadata 8) 0) as [Hz|Hnz]; simpl.
    + now rewrite land_not8_of_clear.
    + now rewrite lor_8_of_set.
Qed.

Lemma codec_round_trip_witness :
  handled 76 75 55 69 69 ∧
  truthify_block 76 75 55 69 (bbool 76 75 55 69 69 13) 69 13 = (69, 13).
Proof.
  assert (handled 76 75 55 69 69) as H by (left; reflexivity).
  split; [exact H | exact (codec_round_trip 76 75 55 69 69 13 H)].
Defined.

(** C8. [truthify_block] is a total function; when the block table gives
    the four blocks different slots it returns, for either torch slot, the
    on slot if [truth] and the off slot otherwise with the metadata kept;
    for a redstone wire with [truth], the metadata kept unless it is zero,
    and then [0xF]; for a redstone wire without [truth], metadata 0; for a
    lever, the metadata with bit [0x8] set if [truth] and cleared otherwise,
    the other bits kept; for every other block, the pair unchanged. *)
Theorem truthify_block_cases (torch torch_off wire lever : Z)
    (truth : bool) (block metadata : Z) :
  distinct_slots torch torch_off wire lever →
  let r := truthify_block torch torch_off wire lever truth block metadata in
  (block = torch ∨ block = torch_off →
     r = (if truth then torch else torch_off, metadata)) ∧
  (block = wire →
     (truth = true → metadata ≠ 0 → r = (wire, metadata)) ∧
     (truth = true → metadata = 0 → r = (wire, 15)) ∧
     (truth = false → r = (wire, 0))) ∧
  (block = lever →
     r = (lever, if truth then Z.lor metadata 8
                 else Z.land metadata (Z.lnot 8)) ∧
     Z.testbit r.2 3 = truth ∧
     ∀ n, 0 ≤ n → n ≠ 3 → Z.testbit r.2 n = Z.testbit metadata n) ∧
  (¬ handled torch torch_off wire lever block → r = (block, metadata)).
Proof.
  intros Hd r. subst r. unfold distinct_slots in Hd.
  rewrite !NoDup_cons, !not_elem_of_cons in Hd.
  unfold handled, truthify_block.
  assert (torch ≠ torch_off ∧ torch ≠ wire ∧ torch ≠ lever ∧
          torch_off ≠ wire ∧ torch_off ≠ lever ∧ wire ≠ lever)
    as (Htf & Htw & Htl & Hfw & Hfl & Hwl) by tauto.
  split; [|split; [|split]].
  - intros [->| ->].
    + rewrite Z.eqb_refl. simpl. now destruct truth.
    + rewrite Z.eqb_refl, orb_true_r. now destruct truth.
  - intros ->.
    destruct (Z.eqb_spec wire torch); [congruence|].
    destruct (Z.eqb_spec wire torch_off); [congruence|].
    rewrite Z.eqb_refl. simpl.
    split; [|split].
    + intros -> Hm.
      destruct (Z.eqb_spec metadata 0); [contradiction|reflexivity].
    + intros -> ->. reflexivity.
    + intros ->. reflexivity.
  - intros ->.
    destruct (Z.eqb_spec lever torch); [congruence|].
    destruct (Z.eqb_spec lever torch_off); [congruence|].
    destruct (Z.eqb_spec lever wire); [congruence|].
    rewrite Z.eqb_refl. cbn [orb snd].
    split; [now destruct truth|split].
    + destruct truth; cbn [snd].
      * rewrite Z.lor_spec, testbit_8 by lia. apply orb_true_r.
      * rewrite Z.land_spec, Z.lnot_spec, testbit_8 by lia.
        apply andb_false_r.
    + intros k Hk Hk3. destruct truth; cbn [snd].
      * rewrite Z.lor_spec, testbit_8 by lia.
        destruct (Z.eqb_spec 3 k); [lia|apply orb_false_r].
      * rewrite Z.land_spec, Z.lnot_spec, testbit_8 by lia.
        destruct (Z.eqb_spec 3 k); [lia|apply andb_true_r].
  - intros Hn.
    destruct (Z.eqb_spec block torch); [tauto|].
    destruct (Z.eqb_spec block torch_off); [tauto|].
    destruct (Z.eqb_spec block wire); [tauto|].
    destruct (Z.eqb_spec block lever); [tauto|reflexivity].
Qed.

Lemma truthify_block_cases_witness :
  distinct_slots 76 75 55 69 ∧
  truthify_block 76 75 55 69 true 55 0 = (55, 15).
Proof.
  assert (distinct_slots 76 75 55 69) as Hd.
  { unfold distinct_slots. rewrite !NoDup_cons, !not_elem_of_cons.
    repeat split; try discriminate; try apply not_elem_of_nil; apply NoDup_nil_2. }
  split; [exact Hd|].
  apply (truthify_block_cases 76 75 55 69 true 55 0 Hd); reflexivity.
Defined.

(** ** Connectivity generators *)

Lemma torch_iter_outputs_single o x y z st ins outs :
  iter_outputs (mkCircuit (x, y, z) (Torch o) st ins outs)
  = if String.eqb o "+x" then [(x + 1, y, z)] else [(x - 1, y, z)].
Proof.
  unfold iter_outputs, torch_outputs. simpl.
  destruct (String.eqb_spec o "+x") as [->|Hne]; reflexivity.
Qed.

(** C1. The claim is that [Torch.iter_outputs] yields the four horizontal
    neighbours except the mounting block, so all four for a torch mounted
    [+y]; the code's chain of [elif] stops at its first branch: a torch at
    [(0, 0, 0)] mounted [+y] yields the single coordinate [(-1, 0, 0)], and
    the three other horizontal neighbours are not yielded. *)
Theorem torch_iter_outputs_mounted_below :
  let torch := new_circuit (Torch "+y") (0, 0, 0) true in
  iter_inputs torch = [(0, -1, 0)] ∧
  iter_outputs torch = [(-1, 0, 0)] ∧
  ((1, 0, 0) ∉ iter_outputs torch) ∧
  ((0, 0, -1) ∉ iter_outputs torch) ∧
  ((0, 0, 1) ∉ iter_outputs torch).
Proof.
  cbv zeta. unfold new_circuit. rewrite torch_iter_outputs_single.
  repeat split; try reflexivity;
    intros H; apply list_elem_of_singleton in H; discriminate.
Qed.

(** ** [Circuit.update] *)

(** C6. [update] returns the empty collection and leaves the state (so
    [status]) unchanged when [inputs] is empty; otherwise, when [op] applied
    to the statuses of the inputs gives [new], it returns the empty
    collection with the state unchanged if [new] is the old status, and
    else stores [new] in [status], changes nothing else, and returns
    [outputs]. *)
Theorem update_cases (σ : state) (self : oid) :
  let c := deref σ self in
  (inputs c = ∅ → update self σ = (σ, Returns ∅)) ∧
  (inputs c ≠ ∅ →
   ∀ new,
     op c (map (λ i, status (deref σ i)) (elements (inputs c))) = Returns new →
     (new = status c → update self σ = (σ, Returns ∅)) ∧
     (new ≠ status c →
      ∃ σ', update self σ = (σ', Returns (outputs c)) ∧
            deref σ' self = with_status new c ∧
            (∀ i, i ≠ self → deref σ' i = deref σ i) ∧
            circuits σ' = circuits σ)).
Proof.
  intros c. unfold update. fold c. split.
  - intros He. destruct (decide (inputs c = ∅)); [reflexivity|contradiction].
  - intros Hne new Hop.
    destruct (decide (inputs c = ∅)); [contradiction|].
    rewrite Hop. split.
    + intros ->. rewrite eqb_reflx. reflexivity.
    + intros Hnew.
      destruct (eqb (status c) new) eqn:E.
      { apply eqb_prop in E. congruence. }
      simpl. eexists. split; [reflexivity|].
      unfold upd, deref. simpl. rewrite lookup_insert_eq. simpl.
      split; [reflexivity|split; [|reflexivity]].
      intros i Hi. rewrite lookup_insert_ne by congruence. reflexivity.
Qed.

Lemma update_cases_witness :
  ∃ σ', update 2%positive torch_on_block = (σ', Returns {[3%positive]}) ∧
        status (deref σ' 2%positive) = true.
Proof.
  assert (inputs (deref torch_on_block 2%positive) ≠ ∅) as Hne
    by (vm_compute; discriminate).
  assert (op (deref torch_on_block 2%positive)
            (map (λ i, status (deref torch_on_block i))
                 (elements (inputs (deref torch_on_block 2%positive))))
          = Returns true) as Hop by (vm_compute; reflexivity).
  assert (true ≠ status (deref torch_on_block 2%positive)) as Hst
    by (vm_compute; discriminate).
  destruct (proj2 (proj2 (update_cases torch_on_block 2%positive) Hne true Hop)
              Hst) as (σ' & Hu & Hd & _).
  exists σ'. split; [exact Hu|]. rewrite Hd. reflexivity.
Defined.

(** ** The object store *)

Lemma deref_upd i f σ j :
  deref (upd i f σ) j = if decide (i = j) then f (deref σ i) else deref σ j.
Proof.
  unfold upd, deref. simpl. rewrite lookup_insert.
  destruct (decide (i = j)); reflexivity.
Qed.

Lemma deref_set_circuits σ m j : deref (mkState (objs σ) m) j = deref σ j.
Proof. reflexivity. Qed.

Lemma circuits_upd i f σ : circuits (upd i f σ) = circuits σ.
Proof. reflexivity. Qed.

(** Reading any field after one of the four set operations. *)
Ltac store_simpl :=
  unfold inputs_add, outputs_add, inputs_discard, outputs_discard;
  rewrite ?deref_upd;
  repeat case_decide; subst; simpl.

Lemma symmetric_set_circuits σ m :
  symmetric σ → symmetric (mkState (objs σ) m).
Proof. intros H a b. apply H. Qed.

Lemma traced_set_circuits σ m : traced σ → traced (mkState (objs σ) m).
Proof. intros H a b. apply H. Qed.

(** *** [connect] keeps the invariants *)

Lemma connect_input_symmetric self σ xyz :
  symmetric σ → symmetric (connect_input self σ xyz).
Proof.
  intros H. unfold connect_input.
  destruct (circuits σ !! xyz) as [target|]; [|exact H].
  case_bool_decide; [|exact H].
  intros a b. specialize (H a b). store_simpl; set_solver.
Qed.

Lemma connect_output_symmetric self σ xyz :
  symmetric σ → symmetric (connect_output self σ xyz).
Proof.
  intros H. unfold connect_output.
  destruct (circuits σ !! xyz) as [target|]; [|exact H].
  case_bool_decide; [|exact H].
  intros a b. specialize (H a b). store_simpl; set_solver.
Qed.

Lemma connect_input_traced self σ xyz :
  traced σ → traced (connect_input self σ xyz).
Proof.
  intros H. unfold connect_input.
  destruct (circuits σ !! xyz) as [target|]; [|exact H].
  case_bool_decide as Hn; [|exact H].
  intros a b. specialize (H a b). store_simpl; set_solver.
Qed.

Lemma connect_output_traced self σ xyz :
  traced σ → traced (connect_output self σ xyz).
Proof.
  intros H. unfold connect_output.
  destruct (circuits σ !! xyz) as [target|]; [|exact H].
  case_bool_decide as Hn; [|exact H].
  intros a b. specialize (H a b). store_simpl; set_solver.
Qed.

Lemma foldl_invariant {A} (P : state → Prop) (f : state → A → state) l σ :
  (∀ s x, P s → P (f s x)) → P σ → P (foldl f σ l).
Proof.
  intros Hf. revert σ. induction l as [|x l IH]; intros σ Hσ; simpl; auto.
Qed.

Lemma connect_invariant (P : state → Prop) self σ :
  (∀ s m, P s → P (mkState (objs s) m)) →
  (∀ s xyz, P s → P (connect_input self s xyz)) →
  (∀ s xyz, P s → P (connect_output self s xyz)) →
  P σ → P (connect self σ).1.
Proof.
  intros Hm Hi Ho Hσ. unfold connect.
  destruct (circuits σ !! coords (deref σ self)) as [other|].
  - case_bool_decide; simpl; [exact Hσ|].
    apply foldl_invariant; [exact (Ho)|].
    apply foldl_invariant; [exact (Hi)|]. apply Hm, Hσ.
  - simpl. apply foldl_invariant; [exact (Ho)|].
    apply foldl_invariant; [exact (Hi)|]. apply Hm, Hσ.
Qed.

Lemma connect_symmetric self σ : symmetric σ → symmetric (connect self σ).1.
Proof.
  apply connect_invariant;
    auto using symmetric_set_circuits, connect_input_symmetric,
               connect_output_symmetric.
Qed.

Lemma connect_traced self σ : traced σ → traced (connect self σ).1.
Proof.
  apply connect_invariant;
    auto using traced_set_circuits, connect_input_traced,
               connect_output_traced.
Qed.

(** *** The two loops of [disconnect] *)

Lemma discard_outputs_loop self l σ j :
  let σ' := foldl (λ s circuit, outputs_discard circuit self s) σ l in
  circuits σ' = circuits σ ∧
  coords (deref σ' j) = coords (deref σ j) ∧
  cls (deref σ' j) = cls (deref σ j) ∧
  status (deref σ' j) = status (deref σ j) ∧
  inputs (deref σ' j) = inputs (deref σ j) ∧
  (∀ x, x ∈ outputs (deref σ' j) ↔
        x ∈ outputs (deref σ j) ∧ ¬ (j ∈ l ∧ x = self)).
Proof.
  revert σ. induction l as [|i l IH]; intros σ; simpl.
  - split_and!; try reflexivity. intros x. split; [|tauto].
    intros Hx; split; [exact Hx|].
    intros [Hj _]. by apply not_elem_of_nil in Hj.
  - destruct (IH (outputs_discard i self σ)) as (Hc & Hco & Hk & Hs & Hi & Ho).
    rewrite Hc, Hco, Hk, Hs, Hi.
    split_and!; try (store_simpl; reflexivity).
    intros x. rewrite Ho. store_simpl; set_solver.
Qed.

Lemma discard_inputs_loop self l σ j :
  let σ' := foldl (λ s circuit, inputs_discard circuit self s) σ l in
  circuits σ' = circuits σ ∧
  coords (deref σ' j) = coords (deref σ j) ∧
  cls (deref σ' j) = cls (deref σ j) ∧
  status (deref σ' j) = status (deref σ j) ∧
  outputs (deref σ' j) = outputs (deref σ j) ∧
  (∀ x, x ∈ inputs (deref σ' j) ↔
        x ∈ inputs (deref σ j) ∧ ¬ (j ∈ l ∧ x = self)).
Proof.
  revert σ. induction l as [|i l IH]; intros σ; simpl.
  - split_and!; try reflexivity. intros x. split; [|tauto].
    intros Hx; split; [exact Hx|].
    intros [Hj _]. by apply not_elem_of_nil in Hj.
  - destruct (IH (inputs_discard i self σ)) as (Hc & Hco & Hk & Hs & Hi & Ho).
    rewrite Hc, Hco, Hk, Hs, Hi.
    split_and!; try (store_simpl; reflexivity).
    intros x. rewrite Ho. store_simpl; set_solver.
Qed.

(** The state a successful [disconnect] leaves, field by field. *)
Lemma disconnect_returns self σ :
  circuits σ !! coords (deref σ self) = Some self →
  ∃ σ', disconnect self σ = (σ', Returns tt) ∧
    circuits σ' = delete (coords (deref σ self)) (circuits σ) ∧
    (∀ j, coords (deref σ' j) = coords (deref σ j) ∧
          cls (deref σ' j) = cls (deref σ j) ∧
          status (deref σ' j) = status (deref σ j)) ∧
    (∀ j x, x ∈ inputs (deref σ' j) ↔
            j ≠ self ∧ x ∈ inputs (deref σ j) ∧
            ¬ (j ∈ outputs (deref σ self) ∧ x = self)) ∧
    (∀ j x, x ∈ outputs (deref σ' j) ↔
            j ≠ self ∧ x ∈ outputs (deref σ j) ∧
            ¬ (j ∈ inputs (deref σ self) ∧ x = self)).
Proof.
  intros Hat. unfold disconnect. rewrite Hat.
  case_bool_decide as Hs; [congruence|]. clear Hs.
  eexists. split; [reflexivity|].
  set (σ1 := foldl (λ s circuit, outputs_discard circuit self s) σ
               (elements (inputs (deref σ self)))).
  set (σ2 := foldl (λ s circuit, inputs_discard circuit self s) σ1
               (elements (outputs (deref σ1 self)))).
  assert (∀ j, let σ' := σ1 in
    circuits σ' = circuits σ ∧
    coords (deref σ' j) = coords (deref σ j) ∧
    cls (deref σ' j) = cls (deref σ j) ∧
    status (deref σ' j) = status (deref σ j) ∧
    inputs (deref σ' j) = inputs (deref σ j) ∧
    (∀ x, x ∈ outputs (deref σ' j) ↔
          x ∈ outputs (deref σ j) ∧
          ¬ (j ∈ elements (inputs (deref σ self)) ∧ x = self))) as H1
    by (intros j; apply discard_outputs_loop).
  assert (∀ j, let σ' := σ2 in
    circuits σ' = circuits σ1 ∧
    coords (deref σ' j) = coords (deref σ1 j) ∧
    cls (deref σ' j) = cls (deref σ1 j) ∧
    status (deref σ' j) = status (deref σ1 j) ∧
    outputs (deref σ' j) = outputs (deref σ1 j) ∧
    (∀ x, x ∈ inputs (deref σ' j) ↔
          x ∈ inputs (deref σ1 j) ∧
          ¬ (j ∈ elements (outputs (deref σ1 self)) ∧ x = self))) as H2
    by (intros j; apply discard_inputs_loop).
  cbv zeta in H1, H2. cbv zeta.
  split; [|split; [|split]].
  - unfold upd. cbn [circuits].
    destruct (H2 self) as (-> & _). destruct (H1 self) as (-> & _).
    reflexivity.
  - intros j. destruct (H1 j) as (_ & <- & <- & <- & _).
    destruct (H2 j) as (_ & <- & <- & <- & _).
    clear H1 H2. clearbody σ1 σ2.
    rewrite deref_set_circuits, !deref_upd.
    repeat case_decide; subst; simpl; auto.
  - intros j x. destruct (H1 j) as (_ & _ & _ & _ & Hi1 & Ho1).
    destruct (H2 j) as (_ & _ & _ & _ & Ho2 & Hi2).
    destruct (H1 self) as (_ & _ & _ & _ & _ & Hos).
    clear H1 H2. clearbody σ1 σ2.
    rewrite deref_set_circuits, !deref_upd.
    repeat case_decide; subst; simpl; try congruence.
    + set_solver.
    + rewrite Hi2, Hi1. rewrite elem_of_elements. rewrite Hos.
      rewrite elem_of_elements. naive_solver.
  - intros j x. destruct (H1 j) as (_ & _ & _ & _ & Hi1 & Ho1).
    destruct (H2 j) as (_ & _ & _ & _ & Ho2 & Hi2).
    clear H1 H2. clearbody σ1 σ2.
    rewrite deref_set_circuits, !deref_upd.
    repeat case_decide; subst; simpl; try congruence.
    + set_solver.
    + rewrite Ho2, Ho1. rewrite elem_of_elements. naive_solver.
Qed.

(** A call that raises leaves the state as it found it. *)
Lemma disconnect_absent self σ :
  circuits σ !! coords (deref σ self) = None →
  disconnect self σ = (σ, Raises NotAttached).
Proof. intros H. unfold disconnect. rewrite H. reflexivity. Qed.

Lemma disconnect_other self other σ :
  circuits σ !! coords (deref σ self) = Some other → other ≠ self →
  disconnect self σ = (σ, Raises Mismatch).
Proof.
  intros H Hne. unfold disconnect. rewrite H.
  case_bool_decide; [reflexivity|contradiction].
Qed.

Lemma disconnect_cases self σ :
  (disconnect self σ).1 = σ ∨
  circuits σ !! coords (deref σ self) = Some self.
Proof.
  destruct (circuits σ !! coords (deref σ self)) as [other|] eqn:E.
  - destruct (decide (other = self)) as [->|Hne]; [by right|].
    left. by rewrite (disconnect_other _ _ _ E Hne).
  - left. by rewrite disconnect_absent.
Qed.

Lemma disconnect_symmetric self σ :
  symmetric σ → symmetric (disconnect self σ).1.
Proof.
  intros H. destruct (disconnect_cases self σ) as [->|Hat]; [exact H|].
  destruct (disconnect_returns self σ Hat) as (σ' & -> & _ & _ & Hi & Ho).
  simpl. intros a b. rewrite Hi, Ho.
  pose proof (H a b). pose proof (H a self). pose proof (H self b).
  naive_solver.
Qed.

Lemma disconnect_traced self σ : traced σ → traced (disconnect self σ).1.
Proof.
  intros H. destruct (disconnect_cases self σ) as [->|Hat]; [exact H|].
  destruct (disconnect_returns self σ Hat) as (σ' & -> & _ & Hk & Hi & _).
  simpl. intros a b Hab. apply Hi in Hab as (_ & Hab & _).
  destruct (Hk a) as (_ & -> & _). destruct (Hk b) as (_ & -> & _).
  by apply H.
Qed.

(** *** Programs keep the invariants *)

Lemma deref_fresh σ : deref σ (fresh (dom (objs σ))) = blank.
Proof.
  unfold deref. rewrite (not_elem_of_dom_1 (objs σ)); [reflexivity|].
  apply is_fresh.
Qed.

Lemma exec_invariant σ cmd :
  symmetric σ ∧ traced σ → symmetric (exec σ cmd) ∧ traced (exec σ cmd).
Proof.
  intros [Hs Ht]. destruct cmd as [k xyz st|c|c]; simpl.
  - pose proof (deref_fresh σ) as Hf.
    set (i := fresh (dom (objs σ))) in *.
    assert (∀ j, deref (mkState (<[i := new_circuit k xyz st]> (objs σ))
                          (circuits σ)) j
                 = if decide (i = j) then new_circuit k xyz st
                   else deref σ j) as Hd.
    { intros j. unfold deref. simpl. rewrite lookup_insert.
      destruct (decide (i = j)); reflexivity. }
    assert (∀ a, (i ∉ inputs (deref σ a)) ∧ (i ∉ outputs (deref σ a))) as Hno.
    { intros a. split; intros Hin.
      - apply Hs in Hin. rewrite Hf in Hin. set_solver.
      - apply Hs in Hin. rewrite Hf in Hin. set_solver. }
    split.
    + intros a b. rewrite !Hd. specialize (Hs a b).
      destruct (Hno a), (Hno b).
      repeat case_decide; subst; simpl; set_solver.
    + intros a b. rewrite !Hd. specialize (Ht a b).
      destruct (Hno a), (Hno b).
      repeat case_decide; subst; simpl; set_solver.
  - case_decide; [|by split].
    split; [by apply connect_symmetric|by apply connect_traced].
  - case_decide; [|by split].
    split; [by apply disconnect_symmetric|by apply disconnect_traced].
Qed.

Lemma run_snoc prog cmd : run (prog ++ [cmd]) = exec (run prog) cmd.
Proof. unfold run. by rewrite foldl_app. Qed.

Lemma run_invariant prog : symmetric (run prog) ∧ traced (run prog).
Proof.
  induction prog as [|cmd prog IH] using rev_ind.
  - split; intros a b; unfold run, deref; simpl; rewrite !lookup_empty;
      simpl; set_solver.
  - rewrite run_snoc. by apply exec_invariant.
Qed.

(** C3. Edge symmetry: after any sequence of circuit constructions,
    [connect] and [disconnect] calls on an Asic that starts empty, for every
    two circuits [a] and [b] stored in the Asic, [a] is in [b.inputs] if and
    only if [b] is in [a.outputs]. *)
Theorem edge_symmetry (prog : list command) (a b : oid) :
  stored (run prog) a → stored (run prog) b →
  (a ∈ inputs (deref (run prog) b) ↔ b ∈ outputs (deref (run prog) a)).
Proof. intros _ _. apply run_invariant. Qed.

Lemma edge_symmetry_witness :
  stored torch_on_block 1%positive ∧ stored torch_on_block 2%positive ∧
  (1%positive ∈ inputs (deref torch_on_block 2%positive) ↔
   2%positive ∈ outputs (deref torch_on_block 1%positive)).
Proof.
  assert (stored torch_on_block 1%positive) as H1
    by (exists (0, 0, 0); vm_compute; reflexivity).
  assert (stored torch_on_block 2%positive) as H2
    by (exists (1, 0, 0); vm_compute; reflexivity).
  split; [exact H1|split; [exact H2|]].
  exact (edge_symmetry _ 1%positive 2%positive H1 H2).
Defined.

(** C2, as the code has it. After any sequence of circuit constructions,
    [connect] and [disconnect] calls, every edge [a → b] of the Asic ([a] in
    [b.inputs] and [b] in [a.outputs]) has [b.name] in [a.traceables]: the
    traceables of a class name the classes it feeds.  Accordingly the first
    loop of [connect] adds a neighbour as an input of the new circuit only
    when the new circuit's name is in the neighbour's traceables. *)
Theorem edge_legality (prog : list command) (a b : oid) :
  (edge (run prog) a b →
   name (cls (deref (run prog) b)) ∈ traceables (cls (deref (run prog) a))) ∧
  (∀ σ xyz,
     a ∈ inputs (deref (connect_input b σ xyz) b) →
     a ∉ inputs (deref σ b) →
     circuits σ !! xyz = Some a ∧
     name (cls (deref σ b)) ∈ traceables (cls (deref σ a))).
Proof.
  split.
  - intros [Hab _]. by apply run_invariant.
  - intros σ xyz. unfold connect_input.
    destruct (circuits σ !! xyz) as [target|]; [|tauto].
    case_bool_decide as Hn; [|tauto].
    store_simpl; set_solver.
Qed.

Lemma edge_legality_witness :
  edge torch_on_block 1%positive 2%positive ∧
  name (cls (deref torch_on_block 2%positive))
    ∈ traceables (cls (deref torch_on_block 1%positive)).
Proof.
  assert (edge torch_on_block 1%positive 2%positive) as He.
  { split; vm_compute; set_solver. }
  split; [exact He|].
  exact (proj1 (edge_legality _ 1%positive 2%positive) He).
Defined.

(** C2 as stated fails: a plain block with a torch mounted on it is an
    edge from the block to the torch, and ["plain"] is not in the torch's
    traceables [("wire",)]. *)
Lemma edge_legality_as_stated_fails :
  ¬ (∀ prog a b,
       edge (run prog) a b →
       name (cls (deref (run prog) a))
         ∈ traceables (cls (deref (run prog) b))).
Proof.
  intros H.
  specialize (H [New PlainBlock (0, 0, 0) false;
                 New (Torch "+x") (1, 0, 0) false;
                 New Wire (2, 0, 0) false;
                 Connect 1%positive; Connect 3%positive; Connect 2%positive]
                1%positive 2%positive).
  assert (edge torch_on_block 1%positive 2%positive) as He.
  { split; vm_compute; set_solver. }
  apply H in He. vm_compute in He.
  apply list_elem_of_singleton in He. discriminate.
Qed.

(** C4. The claim is that a torch in the Asic has at most one input, the
    circuit at its mounting block.  The second loop of [connect] adds any
    plain block attached at a neighbour listed by the block's own
    [iter_outputs] to the torch's inputs, whatever the torch's orientation:
    a torch at [(0, 0, 0)] mounted on [(-1, 0, 0)], attached before plain
    blocks at [(1, 0, 0)] and [(0, 0, 1)], ends with both as inputs and no
    circuit at its mounting block, and [update] then raises [TypeError] out
    of [operator.not_].  Attached after the blocks, the same torch has no
    input. *)
Theorem torch_with_two_inputs :
  cls (deref torch_then_blocks 1%positive) = Torch "+x" ∧
  stored torch_then_blocks 1%positive ∧
  iter_inputs (deref torch_then_blocks 1%positive) = [(-1, 0, 0)] ∧
  circuits torch_then_blocks !! (-1, 0, 0) = None ∧
  inputs (deref torch_then_blocks 1%positive) = {[2%positive; 3%positive]} ∧
  size (inputs (deref torch_then_blocks 1%positive)) = 2%nat ∧
  update 1%positive torch_then_blocks = (torch_then_blocks, Raises TypeError) ∧
  inputs (deref blocks_then_torch 1%positive) = ∅.
Proof.
  split_and!; try (vm_compute; reflexivity).
  exists (0, 0, 0). vm_compute. reflexivity.
Qed.

(** C9. On an Asic built by any sequence of constructions, [connect] and
    [disconnect] calls, [disconnect] of a circuit [c] raises the
    not-attached error when [c.coords] is not a key of the Asic's map and
    the mismatch error when the key holds another circuit, both with the
    state unchanged; otherwise it returns, and afterwards no circuit has
    [c] in its inputs or outputs, [c]'s own inputs and outputs are empty,
    the entry at [c.coords] is erased from the map, and the edges between
    other circuits are as before. *)
Theorem disconnect_cleans (prog : list command) (c : oid) :
  let σ := run prog in
  (circuits σ !! coords (deref σ c) = None →
   disconnect c σ = (σ, Raises NotAttached)) ∧
  (∀ other, circuits σ !! coords (deref σ c) = Some other → other ≠ c →
            disconnect c σ = (σ, Raises Mismatch)) ∧
  (circuits σ !! coords (deref σ c) = Some c →
   ∃ σ', disconnect c σ = (σ', Returns tt) ∧
     (∀ b, (c ∉ inputs (deref σ' b)) ∧ (c ∉ outputs (deref σ' b))) ∧
     inputs (deref σ' c) = ∅ ∧ outputs (deref σ' c) = ∅ ∧
     circuits σ' = delete (coords (deref σ c)) (circuits σ) ∧
     circuits σ' !! coords (deref σ c) = None ∧
     (∀ a b, a ≠ c → b ≠ c →
             (a ∈ inputs (deref σ' b) ↔ a ∈ inputs (deref σ b)) ∧
             (a ∈ outputs (deref σ' b) ↔ a ∈ outputs (deref σ b)))).
Proof.
  intros σ. split; [apply disconnect_absent|]. split.
  { intros other. apply disconnect_other. }
  intros Hat. destruct (run_invariant prog) as [Hs _]. fold σ in Hs.
  destruct (disconnect_returns c σ Hat) as (σ' & Hd & Hc & _ & Hi & Ho).
  exists σ'. split; [exact Hd|]. split_and!.
  - intros b. rewrite Hi, Ho. pose proof (Hs c b). pose proof (Hs b c).
    naive_solver.
  - apply set_eq. intros x. rewrite Hi. set_solver.
  - apply set_eq. intros x. rewrite Ho. set_solver.
  - exact Hc.
  - rewrite Hc. apply lookup_delete_eq.
  - intros a b Ha Hb. rewrite Hi, Ho. naive_solver.
Qed.

Lemma disconnect_cleans_witness :
  ∃ σ', disconnect 2%positive torch_on_block = (σ', Returns tt) ∧
        (2%positive ∉ outputs (deref σ' 1%positive)) ∧
        (2%positive ∉ inputs (deref σ' 3%positive)) ∧
        inputs (deref σ' 2%positive) = ∅ ∧
        circuits σ' !! (1, 0, 0) = None.
Proof.
  assert (circuits torch_on_block
            !! coords (deref torch_on_block 2%positive) = Some 2%positive)
    as Hat by (vm_compute; reflexivity).
  destruct (proj2 (proj2 (disconnect_cleans
    [New PlainBlock (0, 0, 0) false; New (Torch "+x") (1, 0, 0) false;
     New Wire (2, 0, 0) false;
     Connect 1%positive; Connect 3%positive; Connect 2%positive]
    2%positive)) Hat) as (σ' & Hd & Hno & Hi & _ & _ & Hk & _).
  exists σ'. split; [exact Hd|]. split_and!.
  - apply Hno.
  - apply Hno.
  - exact Hi.
  - exact Hk.
Defined.

(** ** [Asic.find_wires] *)

Lemma name_wire k : name k = "wire" ↔ k = Wire.
Proof. destruct k; simpl; split; intros H; try discriminate; done. Qed.

Lemma wire_neighbours σ w :
  is_wire σ w →
  iter_inputs (deref σ w) ++ iter_outputs (deref σ w)
  = horizontal (coords (deref σ w)) ++ horizontal (coords (deref σ w)).
Proof. unfold is_wire, iter_inputs, iter_outputs. by intros ->. Qed.

(** The inner [for] loop appends exactly the unrecorded wires found at the
    listed coordinates. *)
Lemma visit_loop σ wires l d :
  ∃ new, foldl (visit σ wires) d l = d ++ new ∧
    ∀ c, c ∈ new ↔
         ∃ nb, nb ∈ l ∧ circuits σ !! nb = Some c ∧
               is_wire σ c ∧ c ∉ wires.
Proof.
  revert d. induction l as [|nb l IH]; intros d; simpl.
  - exists []. rewrite app_nil_r. split; [done|]. intros c. split.
    + intros Hc. by apply not_elem_of_nil in Hc.
    + intros (nb & Hnb & _). by apply not_elem_of_nil in Hnb.
  - destruct (IH (visit σ wires d nb)) as (new & -> & Hnew).
    unfold visit at 1. unfold is_wire in *.
    destruct (circuits σ !! nb) as [c0|] eqn:Hnb.
    + destruct (bool_decide (name (cls (deref σ c0)) = "wire")
                && bool_decide (c0 ∉ wires)) eqn:Hb.
      * apply andb_true_iff in Hb as [Hw Hn].
        apply bool_decide_eq_true in Hw, Hn. apply name_wire in Hw.
        exists (c0 :: new). rewrite <- app_assoc. split; [done|].
        intros c. rewrite elem_of_cons, Hnew. split.
        -- intros [->|(nb' & ? & ?)].
           ++ exists nb. rewrite elem_of_cons. auto.
           ++ exists nb'. rewrite elem_of_cons. auto.
        -- intros (nb' & Hin & Hl & Hrest).
           apply elem_of_cons in Hin as [->|Hin].
           ++ left. congruence.
           ++ right. eauto.
      * exists new. split; [done|]. intros c. rewrite Hnew. split.
        -- intros (nb' & ? & ?). exists nb'. rewrite elem_of_cons. auto.
        -- intros (nb' & Hin & Hl & Hk & Hn).
           apply elem_of_cons in Hin as [->|Hin]; [|eauto].
           exfalso. assert (c = c0) as -> by congruence.
           apply andb_false_iff in Hb as [Hb|Hb];
             apply bool_decide_eq_false in Hb; apply Hb; [|done].
           by apply name_wire.
    + exists new. split; [done|]. intros c. rewrite Hnew. split.
      * intros (nb' & ? & ?). exists nb'. rewrite elem_of_cons. auto.
      * intros (nb' & Hin & Hl & Hrest).
        apply elem_of_cons in Hin as [->|Hin]; [congruence|eauto].
Qed.

Lemma search_more_fuel σ fuel d wires r :
  search fuel σ d wires = Done r → search (S fuel) σ d wires = Done r.
Proof.
  revert d wires. induction fuel as [|fuel IH]; intros d wires; [done|].
  intros H. destruct d as [|w d']; [exact H|].
  simpl in H. apply IH in H. exact H.
Qed.

Lemma search_fuel_le σ fuel fuel' d wires r :
  (fuel ≤ fuel')%nat →
  search fuel σ d wires = Done r → search fuel' σ d wires = Done r.
Proof.
  induction 1 as [|fuel' _ IH]; [done|].
  intros H. by apply search_more_fuel, IH.
Qed.

Lemma stale_fresh wires (new : list oid) :
  (∀ c, c ∈ new → c ∉ wires) → stale wires new = [].
Proof.
  intros H. unfold stale. induction new as [|c new IH]; [done|].
  rewrite filter_cons_False; [|apply H; left].
  apply IH. intros c' Hc'. apply H. by right.
Qed.

(** The loop ends: a pop either records a new stored circuit or uses up a
    queued entry that was already recorded. *)
Lemma search_terminates σ (n k : nat) :
  ∀ d wires,
    size (stored_set σ ∖ wires) = n → length (stale wires d) = k →
    (∀ x, x ∈ d → x ∈ stored_set σ) →
    ∃ fuel r, search fuel σ d wires = Done r.
Proof.
  revert k. induction n as [n IHn] using lt_wf_ind.
  induction k as [k IHk] using lt_wf_ind.
  intros d wires Hn Hk Hd. destruct d as [|w d'].
  { exists 1%nat, wires. reflexivity. }
  destruct (visit_loop σ wires
              (iter_inputs (deref σ w) ++ iter_outputs (deref σ w)) d')
    as (new & Hfold & Hnew).
  assert (∀ x, x ∈ d' ++ new → x ∈ stored_set σ) as Hd'.
  { intros x Hx. apply elem_of_app in Hx as [Hx|Hx].
    - apply Hd. by right.
    - apply Hnew in Hx as (nb & _ & Hl & _).
      unfold stored_set. apply elem_of_map_img. eauto. }
  destruct (decide (w ∈ wires)) as [Hin|Hout].
  - assert (wires ∪ {[w]} = wires) as Heq by set_solver.
    destruct (IHk (length (stale wires d'))) with (d := d' ++ new)
      (wires := wires) as (fuel & r & Hr).
    + subst k. unfold stale. rewrite filter_cons_True by done. simpl. lia.
    + exact Hn.
    + unfold stale. rewrite filter_app. fold (stale wires new).
      rewrite stale_fresh; [by rewrite app_nil_r|].
      intros c Hc. apply Hnew in Hc as (nb & _ & _ & _ & Hc). exact Hc.
    + exact Hd'.
    + exists (S fuel), r. simpl. rewrite Hfold, Heq. exact Hr.
  - destruct (IHn (size (stored_set σ ∖ (wires ∪ {[w]}))))
      with (k := length (stale (wires ∪ {[w]}) (d' ++ new)))
           (d := d' ++ new) (wires := wires ∪ {[w]}) as (fuel & r & Hr);
      try done.
    + subst n. apply subset_size.
      assert (w ∈ stored_set σ) by (apply Hd; left).
      set_solver.
    + exists (S fuel), r. simpl. rewrite Hfold. exact Hr.
Qed.

Lemma search_inv_step σ root w d' wires new :
  search_inv σ root (w :: d') wires →
  (∀ c, c ∈ new ↔
        ∃ nb, nb ∈ iter_inputs (deref σ w) ++ iter_outputs (deref σ w) ∧
              circuits σ !! nb = Some c ∧ is_wire σ c ∧ c ∉ wires) →
  search_inv σ root (d' ++ new) (wires ∪ {[w]}).
Proof.
  intros (Hroot & Hgrp & Hcl) Hnew.
  destruct (Hgrp w) as [Hw Hrw]; [right; left|].
  rewrite (wire_neighbours σ w Hw) in Hnew.
  split; [set_solver|]. split.
  - intros x Hx.
    assert (x ∈ wires ∨ x ∈ w :: d' ∨ x ∈ new) as [?|[?|Hx']]
      by (revert Hx; rewrite elem_of_union, elem_of_singleton, elem_of_app,
            elem_of_cons; naive_solver);
      [apply Hgrp; by left|apply Hgrp; by right|].
    apply Hnew in Hx' as (nb & Hnb & Hl & Hk & _).
    split; [exact Hk|].
    eapply rtc_r; [exact Hrw|].
    split; [exact Hw|]. split; [exact Hk|]. exists nb.
    split; [|exact Hl]. apply elem_of_app in Hnb. tauto.
  - intros u Hu. destruct (decide (u = w)) as [->|Hne].
    + right. intros v (_ & Hv & nb & Hnb & Hl).
      destruct (decide (v ∈ wires)) as [?|Hnv]; [left; set_solver|].
      right. apply elem_of_app. right. apply Hnew. exists nb.
      rewrite elem_of_app. auto.
    + assert (u ∈ wires) as Hu' by set_solver.
      destruct (Hcl u Hu') as [Hq|Hadj].
      * left. apply elem_of_cons in Hq as [?|?]; [done|].
        apply elem_of_app. by left.
      * right. intros v Hv. destruct (Hadj v Hv) as [?|Hq].
        -- left. set_solver.
        -- apply elem_of_cons in Hq as [->|?]; [left; set_solver|].
           right. apply elem_of_app. by left.
Qed.

Lemma search_sound σ root fuel :
  ∀ d wires r,
    search_inv σ root d wires → search fuel σ d wires = Done r →
    search_inv σ root [] r.
Proof.
  induction fuel as [|fuel IH]; intros d wires r Hinv H; [done|].
  destruct d as [|w d'].
  - simpl in H. by injection H as <-.
  - simpl in H.
    destruct (visit_loop σ wires
                (iter_inputs (deref σ w) ++ iter_outputs (deref σ w)) d')
      as (new & Hfold & Hnew).
    rewrite Hfold in H. eapply IH; [|exact H].
    by apply search_inv_step.
Qed.

Lemma search_inv_start σ root :
  is_wire σ root → search_inv σ root [root] {[root]}.
Proof.
  intros Hw. split; [set_solver|]. split.
  - intros x Hx. assert (x = root) as -> by set_solver.
    split; [exact Hw|apply rtc_refl].
  - intros u Hu. left. set_solver.
Qed.

Lemma search_inv_done σ root r :
  search_inv σ root [] r →
  root ∈ r ∧ (∀ w, w ∈ r → is_wire σ w) ∧
  (∀ u v, u ∈ r → wire_adjacent σ u v → v ∈ r) ∧
  (∀ w, w ∈ r ↔ wire_group σ root w).
Proof.
  intros (Hroot & Hgrp & Hcl).
  assert (∀ u v, u ∈ r → wire_adjacent σ u v → v ∈ r) as Hclosed.
  { intros u v Hu Hv. destruct (Hcl u Hu) as [Hq|Hadj].
    - by apply not_elem_of_nil in Hq.
    - destruct (Hadj v Hv) as [?|Hq]; [done|].
      by apply not_elem_of_nil in Hq. }
  split; [exact Hroot|]. split; [|split; [exact Hclosed|]].
  - intros w Hw. apply Hgrp. by left.
  - assert (∀ w, wire_group σ root w → w ∈ r) as Hall.
    { unfold wire_group. apply rtc_ind_r; [exact Hroot|].
      intros y z _ Hyz Hy. by eapply Hclosed. }
    intros w. split; [|apply Hall].
    intros Hw. apply Hgrp. by left.
Qed.

Lemma find_wires_of_wire σ xyz root :
  circuits σ !! xyz = Some root → is_wire σ root →
  ∀ fuel, find_wires fuel σ xyz
          = match search fuel σ [root] {[root]} with
            | Done wires => Done (Some wires)
            | OutOfFuel => OutOfFuel
            end.
Proof.
  intros Hl Hw fuel. unfold find_wires. rewrite Hl.
  case_bool_decide as Hn; [|done].
  exfalso. apply Hn. by apply name_wire.
Qed.

Lemma search_from_root_terminates σ xyz root :
  circuits σ !! xyz = Some root →
  ∃ fuel r, search fuel σ [root] {[root]} = Done r.
Proof.
  intros Hl. eapply search_terminates; [done|done|].
  intros x Hx. assert (x = root) as -> by set_solver.
  unfold stored_set. apply elem_of_map_img. eauto.
Qed.

(** C10, as the code has it. [find_wires] terminates on every Asic and
    coordinate, although a wire may be appended to the deque several times
    before it is recorded: some number of iterations of the [while] loop
    suffices, and with any larger bound the result is the same.  Each pop
    either records a stored circuit not yet recorded or uses up a queued
    entry whose circuit was already recorded; the number of times a wire is
    queued is not bounded by its adjacent edges. *)
Theorem find_wires_terminates (σ : state) (xyz : coord) :
  ∃ fuel r, ∀ fuel', (fuel ≤ fuel')%nat → find_wires fuel' σ xyz = Done r.
Proof.
  unfold find_wires. destruct (circuits σ !! xyz) as [root|] eqn:Hl.
  - case_bool_decide as Hn.
    + exists 0%nat, None. done.
    + destruct (search_from_root_terminates σ xyz root Hl) as (fuel & r & Hr).
      exists fuel, (Some r). intros fuel' Hle.
      by rewrite (search_fuel_le σ fuel fuel' _ _ r Hle Hr).
  - exists 0%nat, None. done.
Qed.

(** C5, as the code has it. [find_wires(x, y, z)] returns [None], not an
    empty set, when the coordinate is absent from the Asic or holds a
    circuit that is not a wire.  When it holds a wire, the search
    terminates and returns a set of wires that contains the seed, is closed
    under horizontal wire-to-wire adjacency, and is exactly the set of
    wires reachable from the seed through such adjacencies. *)
Theorem find_wires_group (σ : state) (xyz : coord) :
  (circuits σ !! xyz = None → ∀ fuel, find_wires fuel σ xyz = Done None) ∧
  (∀ c, circuits σ !! xyz = Some c → ¬ is_wire σ c →
        ∀ fuel, find_wires fuel σ xyz = Done None) ∧
  (∀ root, circuits σ !! xyz = Some root → is_wire σ root →
     ∃ fuel wires,
       (∀ fuel', (fuel ≤ fuel')%nat →
                 find_wires fuel' σ xyz = Done (Some wires)) ∧
       root ∈ wires ∧
       (∀ w, w ∈ wires → is_wire σ w) ∧
       (∀ u v, u ∈ wires → wire_adjacent σ u v → v ∈ wires) ∧
       (∀ w, w ∈ wires ↔ wire_group σ root w)).
Proof.
  split; [|split].
  - intros Hl fuel. unfold find_wires. by rewrite Hl.
  - intros c Hl Hn fuel. unfold find_wires. rewrite Hl.
    case_bool_decide as Hw; [done|].
    exfalso. apply Hn. apply name_wire.
    destruct (decide (name (cls (deref σ c)) = "wire")); [done|].
    contradiction.
  - intros root Hl Hw.
    destruct (search_from_root_terminates σ xyz root Hl) as (fuel & r & Hr).
    exists fuel, r. split.
    + intros fuel' Hle. rewrite (find_wires_of_wire σ xyz root Hl Hw).
      by rewrite (search_fuel_le σ fuel fuel' _ _ r Hle Hr).
    + apply search_inv_done.
      eapply search_sound; [|exact Hr]. by apply search_inv_start.
Qed.

Lemma find_wires_group_witness :
  ∃ fuel wires,
    find_wires fuel wire_row (1, 0, 0) = Done (Some wires) ∧
    2%positive ∈ wires ∧
    (∀ w, w ∈ wires → is_wire wire_row w).
Proof.
  assert (circuits wire_row !! (1, 0, 0) = Some 2%positive) as Hl
    by (vm_compute; reflexivity).
  assert (is_wire wire_row 2%positive) as Hw by (vm_compute; reflexivity).
  destruct (proj2 (proj2 (find_wires_group wire_row (1, 0, 0)))
              2%positive Hl Hw) as (fuel & wires & Hf & Hroot & Hall & _).
  exists fuel, wires. split; [apply Hf; lia|]. split; [exact Hroot|exact Hall].
Defined.

(** C5 as stated fails: on the empty Asic the result is [None], which is
    not the empty set. *)
Lemma find_wires_absent_not_empty_set :
  ¬ (∀ σ xyz fuel,
       circuits σ !! xyz = None → find_wires fuel σ xyz = Done (Some ∅)).
Proof.
  intros H. specialize (H empty_asic (0, 0, 0) 1%nat).
  assert (circuits empty_asic !! (0, 0, 0) = None) as Hl by reflexivity.
  apply H in Hl. vm_compute in Hl. discriminate.
Qed.

(** The search on a row of three wires next to a plain block. *)
Example find_wires_row :
  find_wires 10 wire_row (0, 0, 0)
    = Done (Some {[1%positive; 2%positive; 3%positive]}) ∧
  find_wires 10 wire_row (3, 0, 0) = Done None ∧
  find_wires 10 wire_row (7, 0, 0) = Done None.
Proof. split_and!; vm_compute; reflexivity. Qed.

(** C10 as stated fails in its bound on queueing: in a row of three wires
    searched from its first wire, after three iterations the third wire is
    queued four times and not yet recorded, while its neighbour scans find
    one adjacent wire, twice. *)
Lemma queued_more_than_once_per_edge :
  ¬ (∀ σ root n c,
       let '(d, wires) := queue_after n σ [root] {[root]} in
       (length (filter (λ x, x = c) d) ≤ length (adjacent_wires σ c))%nat).
Proof.
  intros H. specialize (H wire_row 1%positive 3%nat 3%positive).
  vm_compute in H. lia.
Qed.

Example queue_after_row :
  queue_after 3 wire_row [1%positive] {[1%positive]}
    = ([3%positive; 3%positive; 3%positive; 3%positive],
       {[1%positive; 2%positive]}) ∧
  adjacent_wires wire_row 3%positive = [2%positive; 2%positive].
Proof. split; vm_compute; reflexivity. Qed.

(** ** More on [connect] *)

Lemma circuit_eq (c1 c2 : Circuit) :
  coords c1 = coords c2 → cls c1 = cls c2 → status c1 = status c2 →
  inputs c1 = inputs c2 → outputs c1 = outputs c2 → c1 = c2.
Proof. destruct c1, c2; simpl; intros; by subst. Qed.

(** One pass of the first loop: nothing but the two edge sets changes, and
    the edges gained are [target → self] for the targets found. *)
Lemma connect_input_loop self l σ :
  let σ' := foldl (connect_input self) σ l in
  let found a := ∃ xyz, xyz ∈ l ∧ circuits σ !! xyz = Some a ∧
                   name (cls (deref σ self)) ∈ traceables (cls (deref σ a)) in
  circuits σ' = circuits σ ∧
  (∀ j, coords (deref σ' j) = coords (deref σ j) ∧
        cls (deref σ' j) = cls (deref σ j) ∧
        status (deref σ' j) = status (deref σ j)) ∧
  (∀ a b, a ∈ inputs (deref σ' b) ↔
          a ∈ inputs (deref σ b) ∨ (b = self ∧ found a)) ∧
  (∀ a b, b ∈ outputs (deref σ' a) ↔
          b ∈ outputs (deref σ a) ∨ (b = self ∧ found a)).
Proof.
  revert σ. induction l as [|xyz l IH]; intros σ; simpl.
  - split_and!; try done; intros a b; split; try tauto.
    + intros [?|(_ & ? & Hin & _)]; [done|]. by apply not_elem_of_nil in Hin.
    + intros [?|(_ & ? & Hin & _)]; [done|]. by apply not_elem_of_nil in Hin.
  - destruct (IH (connect_input self σ xyz)) as (Hc & Hf & Hi & Ho).
    assert (circuits (connect_input self σ xyz) = circuits σ) as Hc1.
    { unfold connect_input. destruct (circuits σ !! xyz); [|done].
      case_bool_decide; done. }
    assert (∀ j, coords (deref (connect_input self σ xyz) j)
                   = coords (deref σ j) ∧
                 cls (deref (connect_input self σ xyz) j) = cls (deref σ j) ∧
                 status (deref (connect_input self σ xyz) j)
                   = status (deref σ j)) as Hf1.
    { intros j. unfold connect_input. destruct (circuits σ !! xyz); [|done].
      case_bool_decide; [|done]. store_simpl; done. }
    assert (∀ a b, a ∈ inputs (deref (connect_input self σ xyz) b) ↔
                   a ∈ inputs (deref σ b) ∨
                   (b = self ∧ circuits σ !! xyz = Some a ∧
                    name (cls (deref σ self))
                      ∈ traceables (cls (deref σ a)))) as Hi1.
    { intros a b. unfold connect_input.
      destruct (circuits σ !! xyz) as [t|]; [|naive_solver].
      case_bool_decide; [|naive_solver]. store_simpl; set_solver. }
    assert (∀ a b, b ∈ outputs (deref (connect_input self σ xyz) a) ↔
                   b ∈ outputs (deref σ a) ∨
                   (b = self ∧ circuits σ !! xyz = Some a ∧
                    name (cls (deref σ self))
                      ∈ traceables (cls (deref σ a)))) as Ho1.
    { intros a b. unfold connect_input.
      destruct (circuits σ !! xyz) as [t|]; [|naive_solver].
      case_bool_decide; [|naive_solver]. store_simpl; set_solver. }
    split_and!.
    + by rewrite Hc.
    + intros j. destruct (Hf j) as (-> & -> & ->). apply Hf1.
    + intros a b. rewrite Hi, Hi1, Hc1.
      destruct (Hf1 self) as (_ & -> & _). destruct (Hf1 a) as (_ & -> & _).
      setoid_rewrite elem_of_cons. clear. naive_solver.
    + intros a b. rewrite Ho, Ho1, Hc1.
      destruct (Hf1 self) as (_ & -> & _). destruct (Hf1 a) as (_ & -> & _).
      setoid_rewrite elem_of_cons. clear. naive_solver.
Qed.

(** One pass of the second loop: the edges gained are [self → target]. *)
Lemma connect_output_loop self l σ :
  let σ' := foldl (connect_output self) σ l in
  let found b := ∃ xyz, xyz ∈ l ∧ circuits σ !! xyz = Some b ∧
                   name (cls (deref σ b)) ∈ traceables (cls (deref σ self)) in
  circuits σ' = circuits σ ∧
  (∀ j, coords (deref σ' j) = coords (deref σ j) ∧
        cls (deref σ' j) = cls (deref σ j) ∧
        status (deref σ' j) = status (deref σ j)) ∧
  (∀ a b, a ∈ inputs (deref σ' b) ↔
          a ∈ inputs (deref σ b) ∨ (a = self ∧ found b)) ∧
  (∀ a b, b ∈ outputs (deref σ' a) ↔
          b ∈ outputs (deref σ a) ∨ (a = self ∧ found b)).
Proof.
  revert σ. induction l as [|xyz l IH]; intros σ; simpl.
  - split_and!; try done; intros a b; split; try tauto.
    + intros [?|(_ & ? & Hin & _)]; [done|]. by apply not_elem_of_nil in Hin.
    + intros [?|(_ & ? & Hin & _)]; [done|]. by apply not_elem_of_nil in Hin.
  - destruct (IH (connect_output self σ xyz)) as (Hc & Hf & Hi & Ho).
    assert (circuits (connect_output self σ xyz) = circuits σ) as Hc1.
    { unfold connect_output. destruct (circuits σ !! xyz); [|done].
      case_bool_decide; done. }
    assert (∀ j, coords (deref (connect_output self σ xyz) j)
                   = coords (deref σ j) ∧
                 cls (deref (connect_output self σ xyz) j) = cls (deref σ j) ∧
                 status (deref (connect_output self σ xyz) j)
                   = status (deref σ j)) as Hf1.
    { intros j. unfold connect_output. destruct (circuits σ !! xyz); [|done].
      case_bool_decide; [|done]. store_simpl; done. }
    assert (∀ a b, a ∈ inputs (deref (connect_output self σ xyz) b) ↔
                   a ∈ inputs (deref σ b) ∨
                   (a = self ∧ circuits σ !! xyz = Some b ∧
                    name (cls (deref σ b))
                      ∈ traceables (cls (deref σ self)))) as Hi1.
    { intros a b. unfold connect_output.
      destruct (circuits σ !! xyz) as [t|]; [|naive_solver].
      case_bool_decide; [|naive_solver]. store_simpl; set_solver. }
    assert (∀ a b, b ∈ outputs (deref (connect_output self σ xyz) a) ↔
                   b ∈ outputs (deref σ a) ∨
                   (a = self ∧ circuits σ !! xyz = Some b ∧
                    name (cls (deref σ b))
                      ∈ traceables (cls (deref σ self)))) as Ho1.
    { intros a b. unfold connect_output.
      destruct (circuits σ !! xyz) as [t|]; [|naive_solver].
      case_bool_decide; [|naive_solver]. store_simpl; set_solver. }
    split_and!.
    + by rewrite Hc.
    + intros j. destruct (Hf j) as (-> & -> & ->). apply Hf1.
    + intros a b. rewrite Hi, Hi1, Hc1.
      destruct (Hf1 self) as (_ & -> & _). destruct (Hf1 b) as (_ & -> & _).
      setoid_rewrite elem_of_cons. clear. naive_solver.
    + intros a b. rewrite Ho, Ho1, Hc1.
      destruct (Hf1 self) as (_ & -> & _). destruct (Hf1 b) as (_ & -> & _).
      setoid_rewrite elem_of_cons. clear. naive_solver.
Qed.

(** The slot of [self] is free for [self]: empty, or already holding it. *)
Lemma connect_raises self other σ :
  circuits σ !! coords (deref σ self) = Some other → other ≠ self →
  connect self σ = (σ, Raises Occupied).
Proof.
  intros Hl Hne. unfold connect. rewrite Hl.
  case_bool_decide; [done|contradiction].
Qed.

(** The state a successful [connect] leaves, field by field. *)
Lemma connect_returns self σ :
  (circuits σ !! coords (deref σ self) = None ∨
   circuits σ !! coords (deref σ self) = Some self) →
  let m := <[coords (deref σ self) := self]> (circuits σ) in
  let feeds a := ∃ xyz, xyz ∈ iter_inputs (deref σ self) ∧ m !! xyz = Some a ∧
                   name (cls (deref σ self)) ∈ traceables (cls (deref σ a)) in
  let fed b := ∃ xyz, xyz ∈ iter_outputs (deref σ self) ∧ m !! xyz = Some b ∧
                 name (cls (deref σ b)) ∈ traceables (cls (deref σ self)) in
  ∃ σ', connect self σ = (σ', Returns tt) ∧
    circuits σ' = m ∧
    (∀ j, coords (deref σ' j) = coords (deref σ j) ∧
          cls (deref σ' j) = cls (deref σ j) ∧
          status (deref σ' j) = status (deref σ j)) ∧
    (∀ a b, a ∈ inputs (deref σ' b) ↔
            a ∈ inputs (deref σ b) ∨ (b = self ∧ feeds a) ∨
            (a = self ∧ fed b)) ∧
    (∀ a b, b ∈ outputs (deref σ' a) ↔
            b ∈ outputs (deref σ a) ∨ (b = self ∧ feeds a) ∨
            (a = self ∧ fed b)).
Proof.
  intros Hfree m feeds fed.
  set (σ0 := mkState (objs σ) m).
  set (σ1 := foldl (connect_input self) σ0 (iter_inputs (deref σ self))).
  set (σ2 := foldl (connect_output self) σ1 (iter_outputs (deref σ self))).
  assert (connect self σ = (σ2, Returns tt)) as Hrun.
  { unfold connect. destruct Hfree as [->| ->]; [done|].
    case_bool_decide; [congruence|done]. }
  exists σ2. split; [exact Hrun|].
  destruct (connect_input_loop self (iter_inputs (deref σ self)) σ0)
    as (Hc1 & Hf1 & Hi1 & Ho1).
  destruct (connect_output_loop self (iter_outputs (deref σ self)) σ1)
    as (Hc2 & Hf2 & Hi2 & Ho2).
  fold σ1 in Hc1, Hf1, Hi1, Ho1. fold σ2 in Hc2, Hf2, Hi2, Ho2.
  assert (∀ j, deref σ0 j = deref σ j) as H0 by done.
  assert (circuits σ1 = m) as Hm1 by (by rewrite Hc1).
  split_and!.
  - by rewrite Hc2.
  - intros j. destruct (Hf2 j) as (-> & -> & ->).
    destruct (Hf1 j) as (-> & -> & ->). by rewrite H0.
  - intros a b. rewrite Hi2, Hi1, Hm1. unfold feeds, fed.
    destruct (Hf1 self) as (_ & -> & _). destruct (Hf1 b) as (_ & -> & _).
    rewrite !H0. change (circuits σ0) with m. clear. naive_solver.
  - intros a b. rewrite Ho2, Ho1, Hm1. unfold feeds, fed.
    destruct (Hf1 self) as (_ & -> & _). destruct (Hf1 b) as (_ & -> & _).
    rewrite !H0. change (circuits σ0) with m. clear. naive_solver.
Qed.

(** ** Where circuits are stored *)

Lemma allocated_upd i f σ j :
  is_Some (objs σ !! j) → is_Some (objs (upd i f σ) !! j).
Proof.
  intros H. unfold upd. simpl. rewrite lookup_insert.
  case_decide; [by eexists|done].
Qed.

Lemma connect_allocated self σ j :
  is_Some (objs σ !! j) → is_Some (objs (connect self σ).1 !! j).
Proof.
  apply (connect_invariant (λ s, is_Some (objs s !! j))).
  - done.
  - intros s xyz H. unfold connect_input.
    destruct (circuits s !! xyz); [|done]. case_bool_decide; [|done].
    by apply allocated_upd, allocated_upd.
  - intros s xyz H. unfold connect_output.
    destruct (circuits s !! xyz); [|done]. case_bool_decide; [|done].
    by apply allocated_upd, allocated_upd.
Qed.

Lemma disconnect_allocated self σ j :
  is_Some (objs σ !! j) → is_Some (objs (disconnect self σ).1 !! j).
Proof.
  intros H. unfold disconnect.
  destruct (circuits σ !! coords (deref σ self)); [|done].
  case_bool_decide; [done|]. cbv zeta. cbn [fst objs].
  apply allocated_upd, allocated_upd.
  apply (foldl_invariant (λ s, is_Some (objs s !! j)));
    [intros; by apply allocated_upd|].
  apply (foldl_invariant (λ s, is_Some (objs s !! j)));
    [intros; by apply allocated_upd|done].
Qed.

Lemma iter_inputs_ext (c1 c2 : Circuit) :
  coords c1 = coords c2 → cls c1 = cls c2 → iter_inputs c1 = iter_inputs c2.
Proof. unfold iter_inputs. by intros -> ->. Qed.

Lemma iter_outputs_ext (c1 c2 : Circuit) :
  coords c1 = coords c2 → cls c1 = cls c2 → iter_outputs c1 = iter_outputs c2.
Proof. unfold iter_outputs. by intros -> ->. Qed.

Lemma connect_cases self σ :
  (connect self σ).1 = σ ∨
  circuits σ !! coords (deref σ self) = None ∨
  circuits σ !! coords (deref σ self) = Some self.
Proof.
  destruct (circuits σ !! coords (deref σ self)) as [other|] eqn:E; [|auto].
  destruct (decide (other = self)) as [->|Hne]; [auto|].
  left. by rewrite (connect_raises _ _ _ E Hne).
Qed.

Lemma connect_placement self σ :
  symmetric σ → keyed σ ∧ anchored σ ∧ scanned σ →
  keyed (connect self σ).1 ∧ anchored (connect self σ).1 ∧
  scanned (connect self σ).1.
Proof.
  intros Hs (Hk & Ha & Hg).
  destruct (connect_cases self σ) as [->|Hfree]; [done|].
  destruct (connect_returns self σ Hfree) as (σ' & -> & Hm & Hf & Hi & _).
  simpl.
  assert (keyed σ') as Hk'.
  { intros xyz c. rewrite Hm, lookup_insert. destruct (Hf c) as (-> & _).
    case_decide; [congruence|apply Hk]. }
  assert (∀ a, stored σ a → stored σ' a) as Hst.
  { intros a [k Hl]. exists k. rewrite Hm, lookup_insert.
    case_decide as Hd; [|done]. subst k.
    destruct Hfree as [Hfree|Hfree]; congruence. }
  assert (stored σ' self) as Hself.
  { exists (coords (deref σ self)). by rewrite Hm, lookup_insert_eq. }
  split; [exact Hk'|]. split.
  - intros a b Hab. apply Hi in Hab as [Hab|[(-> & xyz & _ & Hl & _)|
                                              (-> & xyz & _ & Hl & _)]].
    + destruct (Ha a b Hab). auto.
    + split; [|done]. exists xyz. by rewrite Hm.
    + split; [done|]. exists xyz. by rewrite Hm.
  - intros a b Hab.
    rewrite (iter_inputs_ext (deref σ' b) (deref σ b)),
            (iter_outputs_ext (deref σ' a) (deref σ a))
      by (try apply (Hf a); apply (Hf b)).
    apply Hi in Hab as [Hab|[(-> & xyz & Hin & Hl & _)|
                             (-> & xyz & Hin & Hl & _)]].
    + destruct (Hf a) as (-> & _). destruct (Hf b) as (-> & _). by apply Hg.
    + left. rewrite <- Hm in Hl. by rewrite (Hk' _ _ Hl).
    + right. rewrite <- Hm in Hl. by rewrite (Hk' _ _ Hl).
Qed.

Lemma disconnect_placement self σ :
  symmetric σ → keyed σ ∧ anchored σ ∧ scanned σ →
  keyed (disconnect self σ).1 ∧ anchored (disconnect self σ).1 ∧
  scanned (disconnect self σ).1.
Proof.
  intros Hs (Hk & Ha & Hg).
  destruct (disconnect_cases self σ) as [->|Hat]; [done|].
  destruct (disconnect_returns self σ Hat) as (σ' & -> & Hm & Hf & Hi & _).
  simpl.
  assert (∀ a b, a ∈ inputs (deref σ' b) →
                 a ∈ inputs (deref σ b) ∧ a ≠ self ∧ b ≠ self) as Hold.
  { intros a b Hab. apply Hi in Hab as (Hb & Hab & Hn).
    split; [done|]. split; [|done]. intros ->. apply Hn.
    split; [|done]. by apply Hs. }
  assert (∀ a, a ≠ self → stored σ a → stored σ' a) as Hst.
  { intros a Hne [k Hl]. exists k. rewrite Hm, lookup_delete_ne; [done|].
    intros <-. congruence. }
  split_and!.
  - intros xyz c. rewrite Hm. destruct (Hf c) as (-> & _).
    intros Hl. apply lookup_delete_Some in Hl as [_ Hl]. by apply Hk.
  - intros a b Hab. apply Hold in Hab as (Hab & ? & ?).
    destruct (Ha a b Hab). auto.
  - intros a b Hab. apply Hold in Hab as (Hab & _).
    rewrite (iter_inputs_ext (deref σ' b) (deref σ b)),
            (iter_outputs_ext (deref σ' a) (deref σ a))
      by (try apply (Hf a); apply (Hf b)).
    destruct (Hf a) as (-> & _). destruct (Hf b) as (-> & _). by apply Hg.
Qed.

Lemma exec_placement σ cmd :
  symmetric σ → closed σ ∧ keyed σ ∧ anchored σ ∧ scanned σ →
  closed (exec σ cmd) ∧ keyed (exec σ cmd) ∧ anchored (exec σ cmd) ∧
  scanned (exec σ cmd).
Proof.
  intros Hs (Hc & Hk & Ha & Hg). destruct cmd as [k xyz st|c|c]; simpl.
  - pose proof (is_fresh (dom (objs σ))) as Hfresh.
    set (i := fresh (dom (objs σ))) in *.
    assert (∀ j, stored σ j → j ≠ i) as Hne.
    { intros j [key Hl] ->. apply Hfresh. apply elem_of_dom. by eapply Hc. }
    assert (∀ j, j ≠ i →
                 deref (mkState (<[i := new_circuit k xyz st]> (objs σ))
                          (circuits σ)) j = deref σ j) as Hd.
    { intros j Hj. unfold deref. simpl. by rewrite lookup_insert_ne. }
    assert (∀ a b, a ∈ inputs (deref (mkState
                       (<[i := new_circuit k xyz st]> (objs σ))
                       (circuits σ)) b) →
                   a ∈ inputs (deref σ b) ∧ a ≠ i ∧ b ≠ i) as Hold.
    { intros a b Hab. destruct (decide (b = i)) as [->|Hb].
      - unfold deref in Hab. simpl in Hab.
        rewrite lookup_insert_eq in Hab. set_solver.
      - rewrite Hd in Hab by done. destruct (Ha a b Hab) as [Hsa _].
        split; [done|]. split; [by apply Hne|done]. }
    split_and!.
    + intros key c Hl. simpl in Hl. simpl. rewrite lookup_insert.
      case_decide; [by eexists|by eapply Hc].
    + intros key c Hl. simpl in Hl. rewrite Hd; [by apply Hk|].
      apply Hne. by exists key.
    + intros a b Hab. apply Hold in Hab as (Hab & _). by apply Ha.
    + intros a b Hab. apply Hold in Hab as (Hab & ? & ?).
      rewrite !Hd by done. by apply Hg.
  - case_decide as Hal; [|done]. split.
    + intros key c' Hl. apply connect_allocated.
      destruct (connect_cases c σ) as [Heq|Hfree];
        [rewrite Heq in Hl; by eapply Hc|].
      destruct (connect_returns c σ Hfree) as (σ' & Hr & Hm & _).
      rewrite Hr in Hl. simpl in Hl. rewrite Hm, lookup_insert in Hl.
      case_decide; [congruence|by eapply Hc].
    + by apply connect_placement.
  - case_decide as Hal; [|done]. split.
    + intros key c' Hl. apply disconnect_allocated.
      destruct (disconnect_cases c σ) as [Heq|Hat];
        [rewrite Heq in Hl; by eapply Hc|].
      destruct (disconnect_returns c σ Hat) as (σ' & Hr & Hm & _).
      rewrite Hr in Hl. simpl in Hl. rewrite Hm in Hl.
      apply lookup_delete_Some in Hl as [_ Hl]. by eapply Hc.
    + by apply disconnect_placement.
Qed.

Lemma run_placement prog :
  closed (run prog) ∧ keyed (run prog) ∧ anchored (run prog) ∧
  scanned (run prog).
Proof.
  induction prog as [|cmd prog IH] using rev_ind.
  - split_and!; intros ? ?; unfold run, deref; simpl;
      rewrite ?lookup_empty; simpl; try done; set_solver.
  - rewrite run_snoc. apply exec_placement; [apply run_invariant|done].
Qed.

(** X1. [connect] raises the occupied error, leaving the state unchanged,
    when the slot at [self.coords] holds another circuit; otherwise it
    returns, the slot then holds [self], every other slot is as before, and
    no circuit's coordinates, class or status has changed. *)
Theorem connect_occupied_or_stored (σ : state) (self : oid) :
  (∀ other, circuits σ !! coords (deref σ self) = Some other → other ≠ self →
            connect self σ = (σ, Raises Occupied)) ∧
  (circuits σ !! coords (deref σ self) = None ∨
   circuits σ !! coords (deref σ self) = Some self →
   ∃ σ', connect self σ = (σ', Returns tt) ∧
     circuits σ' !! coords (deref σ self) = Some self ∧
     (∀ xyz, xyz ≠ coords (deref σ self) →
             circuits σ' !! xyz = circuits σ !! xyz) ∧
     (∀ j, coords (deref σ' j) = coords (deref σ j) ∧
           cls (deref σ' j) = cls (deref σ j) ∧
           status (deref σ' j) = status (deref σ j))).
Proof.
  split; [intros other; apply connect_raises|].
  intros Hfree.
  destruct (connect_returns self σ Hfree) as (σ' & Hr & Hm & Hf & _).
  exists σ'. split; [exact Hr|]. rewrite Hm. split_and!.
  - apply lookup_insert_eq.
  - intros xyz Hne. by rewrite lookup_insert_ne.
  - exact Hf.
Qed.

Lemma connect_occupied_or_stored_witness :
  connect 4%positive torch_on_block_spare
  = (torch_on_block_spare, Raises Occupied).
Proof.
  apply (proj1 (connect_occupied_or_stored torch_on_block_spare 4%positive)
           2%positive); [vm_compute; reflexivity|discriminate].
Defined.

(** X2. A [connect] that returns removes no edge, and every edge it adds
    has [self] at one end and, at the other, the circuit stored at a
    coordinate of the matching scan of [self]. *)
Theorem connect_adds_own_edges (σ : state) (self a b : oid) :
  circuits σ !! coords (deref σ self) = None ∨
  circuits σ !! coords (deref σ self) = Some self →
  let σ' := (connect self σ).1 in
  (a ∈ inputs (deref σ b) → a ∈ inputs (deref σ' b)) ∧
  (b ∈ outputs (deref σ a) → b ∈ outputs (deref σ' a)) ∧
  (a ∈ inputs (deref σ' b) → a ∉ inputs (deref σ b) →
   (b = self ∧ ∃ xyz, xyz ∈ iter_inputs (deref σ self) ∧
                      circuits σ' !! xyz = Some a) ∨
   (a = self ∧ ∃ xyz, xyz ∈ iter_outputs (deref σ self) ∧
                      circuits σ' !! xyz = Some b)).
Proof.
  intros Hfree.
  destruct (connect_returns self σ Hfree) as (σ' & -> & Hm & _ & Hi & Ho).
  simpl. rewrite Hm. split_and!.
  - intros H. apply Hi. by left.
  - intros H. apply Ho. by left.
  - intros H Hn. apply Hi in H as [?|[(-> & xyz & ? & ? & _)|
                                      (-> & xyz & ? & ? & _)]]; [done| |].
    + left. eauto.
    + right. eauto.
Qed.

Lemma connect_adds_own_edges_witness :
  1%positive ∈ inputs (deref (connect 2%positive torch_on_block).1 2%positive).
Proof.
  assert (circuits torch_on_block
            !! coords (deref torch_on_block 2%positive) = None ∨
          circuits torch_on_block
            !! coords (deref torch_on_block 2%positive) = Some 2%positive)
    as Hfree by (right; vm_compute; reflexivity).
  apply (proj1 (connect_adds_own_edges torch_on_block 2%positive
                  1%positive 2%positive Hfree)).
  vm_compute. set_solver.
Defined.

(** X3. After any sequence of constructions, [connect] and [disconnect]
    calls, a circuit stored in the Asic is stored under its own
    coordinates, and so under one key only. *)
Theorem stored_under_own_coords (prog : list command) (xyz xyz' : coord)
    (c : oid) :
  circuits (run prog) !! xyz = Some c →
  coords (deref (run prog) c) = xyz ∧
  (circuits (run prog) !! xyz' = Some c → xyz' = xyz).
Proof.
  destruct (run_placement prog) as (_ & Hk & _).
  intros Hl. split; [by apply Hk|].
  intros Hl'. by rewrite <- (Hk _ _ Hl), <- (Hk _ _ Hl').
Qed.

Lemma stored_under_own_coords_witness :
  coords (deref torch_on_block 2%positive) = (1, 0, 0).
Proof.
  assert (circuits torch_on_block !! (1, 0, 0) = Some 2%positive) as Hl
    by (vm_compute; reflexivity).
  exact (proj1 (stored_under_own_coords _ (1, 0, 0) (1, 0, 0) 2%positive Hl)).
Defined.

(** X4. After any sequence of constructions, [connect] and [disconnect]
    calls, the inputs and outputs of any circuit are circuits stored in the
    Asic, and a circuit that has an input or an output is itself stored: no
    edge outlives the attachment of either end. *)
Theorem edges_join_stored_circuits (prog : list command) (a b : oid) :
  a ∈ inputs (deref (run prog) b) ∨ b ∈ outputs (deref (run prog) a) →
  stored (run prog) a ∧ stored (run prog) b.
Proof.
  destruct (run_placement prog) as (_ & _ & Ha & _).
  destruct (run_invariant prog) as [Hs _].
  intros [H|H]; [|apply Hs in H]; by apply Ha.
Qed.

Lemma edges_join_stored_circuits_witness :
  stored torch_on_block 1%positive ∧ stored torch_on_block 2%positive.
Proof.
  apply (edges_join_stored_circuits
           [New PlainBlock (0, 0, 0) false; New (Torch "+x") (1, 0, 0) false;
            New Wire (2, 0, 0) false;
            Connect 1%positive; Connect 3%positive; Connect 2%positive]).
  left. vm_compute. set_solver.
Defined.

Lemma next_to_horizontal p q : q ∈ horizontal p → next_to q p.
Proof.
  destruct p as [[x y] z], q as [[x' y'] z']. unfold horizontal, next_to.
  simpl. rewrite !elem_of_cons, elem_of_nil.
  intros [H|[H|[H|[H|[]]]]]; injection H; lia.
Qed.

Lemma next_to_mounted_on o p q : q ∈ mounted_on o p → next_to q p.
Proof.
  destruct p as [[x y] z], q as [[x' y'] z']. unfold mounted_on, next_to.
  repeat (destruct (String.eqb _ _)); rewrite ?elem_of_cons, ?elem_of_nil;
    first [by intros [] | intros [Hq|[]]; injection Hq; lia].
Qed.

Lemma next_to_torch_outputs o p q : q ∈ torch_outputs o p → next_to q p.
Proof.
  destruct p as [[x y] z], q as [[x' y'] z']. unfold torch_outputs, next_to.
  repeat (destruct (String.eqb _ _)); simpl;
    rewrite ?elem_of_cons, ?elem_of_nil;
    first [by intros [] | intros [Hq|[]]; injection Hq; lia].
Qed.

Lemma next_to_sym p q : next_to p q → next_to q p.
Proof.
  destruct p as [[x y] z], q as [[x' y'] z']. unfold next_to. lia.
Qed.

Lemma next_to_iter_inputs c q : q ∈ iter_inputs c → next_to q (coords c).
Proof.
  unfold iter_inputs. destruct (cls c);
    eauto using next_to_horizontal, next_to_mounted_on.
  intros H. by apply not_elem_of_nil in H.
Qed.

Lemma next_to_iter_outputs c q : q ∈ iter_outputs c → next_to q (coords c).
Proof.
  unfold iter_outputs. destruct (cls c);
    eauto using next_to_horizontal, next_to_mounted_on,
                next_to_torch_outputs.
Qed.

(** X5. After any sequence of constructions, [connect] and [disconnect]
    calls, the two ends of every edge sit on blocks next to each other:
    their coordinates differ by one along exactly one axis. *)
Theorem edges_join_neighbours (prog : list command) (a b : oid) :
  a ∈ inputs (deref (run prog) b) ∨ b ∈ outputs (deref (run prog) a) →
  next_to (coords (deref (run prog) a)) (coords (deref (run prog) b)).
Proof.
  destruct (run_placement prog) as (_ & _ & _ & Hg).
  destruct (run_invariant prog) as [Hs _].
  intros H. assert (a ∈ inputs (deref (run prog) b)) as Hab
    by (destruct H as [H|H]; [done|by apply Hs]).
  destruct (Hg a b Hab) as [Hin|Hout].
  - by apply next_to_iter_inputs.
  - by apply next_to_sym, next_to_iter_outputs.
Qed.

Lemma edges_join_neighbours_witness :
  next_to (coords (deref torch_on_block 1%positive))
          (coords (deref torch_on_block 2%positive)).
Proof.
  apply (edges_join_neighbours
           [New PlainBlock (0, 0, 0) false; New (Torch "+x") (1, 0, 0) false;
            New Wire (2, 0, 0) false;
            Connect 1%positive; Connect 3%positive; Connect 2%positive]).
  left. vm_compute. set_solver.
Defined.

(** ** Kinds of edges *)

Lemma traceables_cases ka kb :
  name kb ∈ traceables ka →
  (ka = Wire ∧ kb = PlainBlock) ∨
  (ka = PlainBlock ∧ ∃ o, kb = Torch o) ∨
  ((∃ o, ka = Torch o) ∧ kb = Wire) ∨
  ((∃ o, ka = Lever o) ∧ kb = PlainBlock).
Proof.
  destruct ka, kb; simpl; rewrite list_elem_of_singleton; intros H;
    try discriminate; eauto 6.
Qed.

Lemma no_self_trace k : name k ∈ traceables k → False.
Proof.
  destruct k; simpl; rewrite list_elem_of_singleton; discriminate.
Qed.

(** X6. After any sequence of constructions, [connect] and [disconnect]
    calls, a lever has no inputs, so [update] on it returns the empty
    collection without raising and leaves the state, the lever's latched
    status included, unchanged. *)
Theorem lever_never_has_inputs (prog : list command) (c : oid)
    (o : string) :
  cls (deref (run prog) c) = Lever o →
  inputs (deref (run prog) c) = ∅ ∧
  update c (run prog) = (run prog, Returns ∅).
Proof.
  intros Hl. destruct (run_invariant prog) as [_ Ht].
  assert (inputs (deref (run prog) c) = ∅) as He.
  { apply set_eq. intros a. split; [|set_solver].
    intros Ha. apply Ht, traceables_cases in Ha. rewrite Hl in Ha.
    naive_solver. }
  split; [exact He|]. unfold update.
  destruct (decide (inputs (deref (run prog) c) = ∅)); [done|contradiction].
Qed.

Lemma lever_never_has_inputs_witness :
  update 1%positive lever_on_block = (lever_on_block, Returns ∅).
Proof.
  apply (lever_never_has_inputs
           [New (Lever "+x") (1, 0, 0) true; New PlainBlock (0, 0, 0) false;
            Connect 1%positive; Connect 2%positive] 1%positive "+x").
  vm_compute. reflexivity.
Defined.

(** X7. After any sequence of constructions, [connect] and [disconnect]
    calls, the inputs of a wire are torches, the inputs of a plain block
    are wires or levers, the inputs of a torch are plain blocks, and no
    circuit is its own input; in particular no wire is an input of a
    wire. *)
Theorem input_kinds (prog : list command) (a b : oid) :
  a ∈ inputs (deref (run prog) b) →
  let ka := cls (deref (run prog) a) in
  let kb := cls (deref (run prog) b) in
  a ≠ b ∧
  (kb = Wire → ∃ o, ka = Torch o) ∧
  (kb = PlainBlock → ka = Wire ∨ ∃ o, ka = Lever o) ∧
  (∀ o, kb = Torch o → ka = PlainBlock) ∧
  (∀ o, kb ≠ Lever o).
Proof.
  intros Hab ka kb. destruct (run_invariant prog) as [_ Ht].
  apply Ht, traceables_cases in Hab. subst ka kb.
  destruct Hab as [[Ha Hb]|[[Ha [o Hb]]|[[[o Ha] Hb]|[[o Ha] Hb]]]];
    (split; [intros ->; congruence|]); rewrite Ha, Hb;
    split_and!; intros; try congruence; eauto.
Qed.

Lemma input_kinds_witness :
  cls (deref torch_on_block 1%positive) = PlainBlock.
Proof.
  assert (1%positive ∈ inputs (deref torch_on_block 2%positive)) as Hab
    by (vm_compute; set_solver).
  destruct (input_kinds
              [New PlainBlock (0, 0, 0) false;
               New (Torch "+x") (1, 0, 0) false; New Wire (2, 0, 0) false;
               Connect 1%positive; Connect 3%positive; Connect 2%positive]
              1%positive 2%positive Hab) as (_ & _ & _ & Ht & _).
  apply (Ht "+x"). vm_compute. reflexivity.
Defined.

(** ** [update] again *)

Lemma op_with_status st c args r :
  args ≠ [] → op c args = Returns r → op (with_status st c) args = Returns r.
Proof.
  unfold op. simpl. destruct (cls c); try done. by destruct args.
Qed.

(** X8. After any sequence of constructions, [connect] and [disconnect]
    calls, an [update] that returns has settled the circuit: a second
    [update] of the same circuit right after it returns the empty
    collection and changes nothing. *)
Theorem update_settles (prog : list command) (c : oid) (σ' : state)
    (r : gset oid) :
  update c (run prog) = (σ', Returns r) →
  update c σ' = (σ', Returns ∅).
Proof.
  destruct (run_invariant prog) as [_ Ht].
  set (σ := run prog) in *. unfold update at 1.
  destruct (decide (inputs (deref σ c) = ∅)) as [He|Hne].
  { intros [= <- _]. unfold update.
    destruct (decide (inputs (deref σ c) = ∅)); [done|contradiction]. }
  destruct (op (deref σ c) _) as [st|e] eqn:Hop; [|done].
  destruct (eqb (status (deref σ c)) st) eqn:Hst; simpl.
  { intros [= <- _]. unfold update.
    destruct (decide (inputs (deref σ c) = ∅)); [contradiction|].
    by rewrite Hop, Hst. }
  intros [= <- _]. unfold update.
  assert (deref (upd c (with_status st) σ) c = with_status st (deref σ c))
    as Hc by (rewrite deref_upd; by case_decide).
  rewrite Hc. simpl.
  destruct (decide (inputs (deref σ c) = ∅)); [contradiction|].
  assert (map (λ i, status (deref (upd c (with_status st) σ) i))
              (elements (inputs (deref σ c)))
          = map (λ i, status (deref σ i)) (elements (inputs (deref σ c))))
    as ->.
  { apply map_ext_in. intros i Hi. rewrite deref_upd.
    case_decide as Heq; [|done]. subst i.
    apply list_elem_of_In, elem_of_elements in Hi.
    apply Ht in Hi. by apply no_self_trace in Hi. }
  rewrite (op_with_status st _ _ st); [by rewrite eqb_reflx| |exact Hop].
  intros Hnil. apply map_eq_nil, elements_empty_inv in Hnil.
  by apply leibniz_equiv in Hnil.
Qed.

Lemma update_settles_witness :
  ∃ σ', update 2%positive torch_on_block = (σ', Returns {[3%positive]}) ∧
        update 2%positive σ' = (σ', Returns ∅).
Proof.
  eexists. split; [vm_compute; reflexivity|].
  apply (update_settles
           [New PlainBlock (0, 0, 0) false; New (Torch "+x") (1, 0, 0) false;
            New Wire (2, 0, 0) false;
            Connect 1%positive; Connect 3%positive; Connect 2%positive]
           2%positive _ {[3%positive]}).
  vm_compute. reflexivity.
Defined.

(** ** How [connect] and [disconnect] compose *)

(** X9. On an Asic built by any sequence of constructions, [connect] and
    [disconnect] calls, attaching a constructed circuit whose slot is empty
    and detaching it again restores the Asic: the map is as before and so
    is every circuit, with its inputs and outputs. *)
Theorem connect_then_disconnect (prog : list command) (c : oid) :
  let σ := run prog in
  circuits σ !! coords (deref σ c) = None →
  ∃ σ1 σ2, connect c σ = (σ1, Returns tt) ∧
           disconnect c σ1 = (σ2, Returns tt) ∧
           circuits σ2 = circuits σ ∧
           ∀ j, deref σ2 j = deref σ j.
Proof.
  intros σ Hnone.
  destruct (run_invariant prog) as [Hs _].
  destruct (run_placement prog) as (_ & Hk & Ha & _). fold σ in Hs, Hk, Ha.
  assert (∀ a b, a ∈ inputs (deref σ b) → a ≠ c ∧ b ≠ c) as Hfar.
  { intros a b Hab. destruct (Ha a b Hab) as [[ka Hla] [kb Hlb]].
    split; intros ->.
    - rewrite (Hk _ _ Hla) in Hnone. congruence.
    - rewrite (Hk _ _ Hlb) in Hnone. congruence. }
  destruct (connect_returns c σ (or_introl Hnone))
    as (σ1 & Hr1 & Hm1 & Hf1 & Hi1 & Ho1).
  assert (circuits σ1 !! coords (deref σ1 c) = Some c) as Hat.
  { destruct (Hf1 c) as (-> & _). by rewrite Hm1, lookup_insert_eq. }
  destruct (disconnect_returns c σ1 Hat) as (σ2 & Hr2 & Hm2 & Hf2 & Hi2 & Ho2).
  exists σ1, σ2. split; [exact Hr1|]. split; [exact Hr2|]. split.
  - rewrite Hm2, Hm1. destruct (Hf1 c) as (-> & _).
    by rewrite delete_insert_eq, delete_id.
  - intros j. destruct (Hf2 j) as (Hc2 & Hk2 & Hs2).
    destruct (Hf1 j) as (Hc1 & Hk1 & Hs1).
    apply circuit_eq; [congruence|congruence|congruence| |].
    + apply set_eq. intros x. rewrite Hi2, Ho1, !Hi1.
      pose proof (Hfar x j). pose proof (Hs x j). clear -H H0. naive_solver.
    + apply set_eq. intros x. rewrite Ho2, Hi1, !Ho1.
      pose proof (Hfar j x). pose proof (Hs j x). clear -H H0. naive_solver.
Qed.

Lemma connect_then_disconnect_witness :
  ∃ σ1 σ2, connect 4%positive wire_row_spare = (σ1, Returns tt) ∧
           disconnect 4%positive σ1 = (σ2, Returns tt) ∧
           circuits σ2 = circuits wire_row_spare.
Proof.
  assert (circuits wire_row_spare
            !! coords (deref wire_row_spare 4%positive) = None) as Hnone
    by (vm_compute; reflexivity).
  destruct (connect_then_disconnect
              [New Wire (0, 0, 0) false; New Wire (1, 0, 0) false;
               New Wire (2, 0, 0) false; New PlainBlock (3, 0, 0) false;
               Connect 1%positive; Connect 2%positive; Connect 3%positive]
              4%positive Hnone) as (σ1 & σ2 & H1 & H2 & H3 & _).
  exists σ1, σ2. auto.
Defined.

Lemma connect_returned_free c σ σ1 :
  connect c σ = (σ1, Returns tt) →
  circuits σ !! coords (deref σ c) = None ∨
  circuits σ !! coords (deref σ c) = Some c.
Proof.
  intros Hr. destruct (circuits σ !! coords (deref σ c)) as [other|] eqn:E;
    [|by left].
  destruct (decide (other = c)) as [->|Hne]; [by right|].
  rewrite (connect_raises _ _ _ E Hne) in Hr. discriminate.
Qed.

(** X10. Attaching a circuit that is already attached changes nothing: a
    [connect] right after a [connect] of the same circuit that returned
    returns again, with the map and every circuit as they were. *)
Theorem connect_twice (σ σ1 : state) (c : oid) :
  connect c σ = (σ1, Returns tt) →
  ∃ σ2, connect c σ1 = (σ2, Returns tt) ∧
        circuits σ2 = circuits σ1 ∧
        ∀ j, deref σ2 j = deref σ1 j.
Proof.
  intros Hr. pose proof (connect_returned_free c σ σ1 Hr) as Hfree.
  destruct (connect_returns c σ Hfree) as (σ1' & Hr1 & Hm1 & Hf1 & Hi1 & Ho1).
  assert (σ1' = σ1) as -> by congruence.
  assert (coords (deref σ1 c) = coords (deref σ c)) as Hco
    by apply (Hf1 c).
  assert (circuits σ1 !! coords (deref σ1 c) = Some c) as Hat.
  { by rewrite Hco, Hm1, lookup_insert_eq. }
  destruct (connect_returns c σ1 (or_intror Hat))
    as (σ2 & Hr2 & Hm2 & Hf2 & Hi2 & Ho2).
  rewrite (insert_id _ _ _ Hat) in Hm2, Hi2, Ho2.
  rewrite (iter_inputs_ext (deref σ1 c) (deref σ c)) in Hi2, Ho2
    by apply (Hf1 c).
  rewrite (iter_outputs_ext (deref σ1 c) (deref σ c)) in Hi2, Ho2
    by apply (Hf1 c).
  rewrite Hm1 in Hi2, Ho2.
  assert (∀ j, cls (deref σ1 j) = cls (deref σ j)) as Hk
    by (intros j; apply (Hf1 j)).
  exists σ2. split; [exact Hr2|]. split; [exact Hm2|].
  intros j. destruct (Hf2 j) as (? & ? & ?).
  apply circuit_eq; [done|done|done| |].
  - apply set_eq. intros x. rewrite Hi2. rewrite !Hk. rewrite !Hi1.
    clear. naive_solver.
  - apply set_eq. intros x. rewrite Ho2. rewrite !Hk. rewrite !Ho1.
    clear. naive_solver.
Qed.

Lemma connect_twice_witness :
  ∃ σ2, connect 2%positive torch_on_block = (σ2, Returns tt) ∧
        circuits σ2 = circuits torch_on_block.
Proof.
  destruct (connect_twice block_and_wire torch_on_block 2%positive)
    as (σ2 & H2 & Hm & _); [vm_compute; reflexivity|].
  exists σ2. auto.
Defined.

(** X11. [disconnect] is not repeatable: after a [disconnect] that
    returned, a second [disconnect] of the same circuit raises the
    not-attached error and leaves the state as the first one left it. *)
Theorem disconnect_twice (σ σ1 : state) (c : oid) :
  disconnect c σ = (σ1, Returns tt) →
  disconnect c σ1 = (σ1, Raises NotAttached).
Proof.
  intros Hr.
  assert (circuits σ !! coords (deref σ c) = Some c) as Hat.
  { destruct (circuits σ !! coords (deref σ c)) as [other|] eqn:E.
    - destruct (decide (other = c)) as [->|Hne]; [done|].
      rewrite (disconnect_other _ _ _ E Hne) in Hr. discriminate.
    - rewrite (disconnect_absent _ _ E) in Hr. discriminate. }
  destruct (disconnect_returns c σ Hat) as (σ1' & Hr1 & Hm & Hf & _).
  assert (σ1' = σ1) as -> by congruence.
  apply disconnect_absent. destruct (Hf c) as (-> & _).
  rewrite Hm. apply lookup_delete_eq.
Qed.

Lemma disconnect_twice_witness :
  disconnect 2%positive (disconnect 2%positive torch_on_block).1
  = ((disconnect 2%positive torch_on_block).1, Raises NotAttached).
Proof.
  apply (disconnect_twice torch_on_block). vm_compute. reflexivity.
Defined.

(** ** More on [find_wires] *)

Lemma find_wires_found σ xyz fuel wires :
  find_wires fuel σ xyz = Done (Some wires) →
  ∃ root, circuits σ !! xyz = Some root ∧ is_wire σ root ∧
          root ∈ wires ∧
          (∀ w, w ∈ wires ↔ wire_group σ root w).
Proof.
  unfold find_wires. destruct (circuits σ !! xyz) as [root|]; [|done].
  case_bool_decide as Hn; [done|].
  assert (is_wire σ root) as Hw.
  { apply name_wire.
    by destruct (decide (name (cls (deref σ root)) = "wire")). }
  destruct (search fuel σ [root] {[root]}) as [r|] eqn:Hr; [|done].
  intros [= <-]. exists root. split; [done|]. split; [done|].
  destruct (search_inv_done σ root r) as (? & _ & _ & ?); [|done].
  eapply search_sound; [|exact Hr]. by apply search_inv_start.
Qed.

Lemma find_wires_returns σ xyz root :
  circuits σ !! xyz = Some root → is_wire σ root →
  ∃ fuel wires, find_wires fuel σ xyz = Done (Some wires).
Proof.
  intros Hl Hw.
  destruct (search_from_root_terminates σ xyz root Hl) as (fuel & r & Hr).
  exists fuel, r. by rewrite (find_wires_of_wire σ xyz root Hl Hw), Hr.
Qed.

Lemma horizontal_sym (p q : coord) : q ∈ horizontal p → p ∈ horizontal q.
Proof.
  destruct p as [[x y] z], q as [[x' y'] z']. unfold horizontal. simpl.
  rewrite !elem_of_cons, !elem_of_nil.
  intros [H|[H|[H|[H|[]]]]]; injection H as -> -> ->.
  - right; left. f_equal; [f_equal|]; lia.
  - left. f_equal; [f_equal|]; lia.
  - right; right; right; left. f_equal; [f_equal|]; lia.
  - right; right; left. f_equal; [f_equal|]; lia.
Qed.

Lemma horizontal_level (p q : coord) : q ∈ horizontal p → q.1.2 = p.1.2.
Proof.
  destruct p as [[x y] z], q as [[x' y'] z']. unfold horizontal. simpl.
  rewrite !elem_of_cons, !elem_of_nil.
  intros [H|[H|[H|[H|[]]]]]; injection H as -> -> ->; lia.
Qed.

Lemma wire_adjacent_sym σ u v :
  keyed σ → stored σ u → wire_adjacent σ u v →
  wire_adjacent σ v u ∧ stored σ v.
Proof.
  intros Hk [ku Hu] (Hwu & Hwv & xyz & Hin & Hl).
  split; [|by exists xyz]. split; [done|]. split; [done|].
  exists (coords (deref σ u)). split.
  - rewrite (Hk _ _ Hl). by apply horizontal_sym.
  - by rewrite (Hk _ _ Hu).
Qed.

Lemma wire_group_sym σ root w :
  keyed σ → stored σ root → wire_group σ root w →
  wire_group σ w root ∧ stored σ w.
Proof.
  intros Hk Hroot. unfold wire_group. revert w.
  apply rtc_ind_r; [split; [apply rtc_refl|done]|].
  intros y z _ Hyz [Hback Hy].
  destruct (wire_adjacent_sym σ y z Hk Hy Hyz) as [Hzy Hz].
  split; [|done]. by eapply rtc_l.
Qed.

(** X12. On an Asic built by any sequence of constructions, [connect] and
    [disconnect] calls, the group [find_wires] returns does not depend on
    the seed: searching from the coordinates of any wire of the returned
    set returns the same set. *)
Theorem find_wires_any_seed (prog : list command) (xyz : coord)
    (fuel : nat) (wires : gset oid) (w : oid) :
  let σ := run prog in
  find_wires fuel σ xyz = Done (Some wires) → w ∈ wires →
  ∃ fuel', find_wires fuel' σ (coords (deref σ w)) = Done (Some wires).
Proof.
  intros σ Hf Hw. destruct (run_placement prog) as (_ & Hk & _). fold σ in Hk.
  destruct (find_wires_found σ xyz fuel wires Hf)
    as (root & Hl & Hroot & _ & Hgrp).
  assert (stored σ root) as Hst by (by exists xyz).
  apply Hgrp in Hw.
  destruct (wire_group_sym σ root w Hk Hst Hw) as [Hback [kw Hlw]].
  assert (is_wire σ w) as Hww.
  { revert Hw. unfold wire_group. intros Hw.
    apply rtc_inv_r in Hw as [->|(y & _ & _ & ? & _)]; done. }
  rewrite (Hk _ _ Hlw).
  destruct (find_wires_returns σ kw w Hlw Hww) as (fuel' & wires' & Hf').
  exists fuel'. rewrite Hf'. do 2 f_equal.
  destruct (find_wires_found σ kw fuel' wires' Hf')
    as (w' & Hlw' & _ & _ & Hgrp').
  assert (w' = w) as -> by congruence.
  apply set_eq. intros x. rewrite Hgrp, Hgrp'. unfold wire_group in *.
  split; intros Hx; by etrans.
Qed.

Lemma find_wires_any_seed_witness :
  ∃ fuel', find_wires fuel' wire_row (2, 0, 0)
           = Done (Some {[1%positive; 2%positive; 3%positive]}).
Proof.
  destruct (find_wires_any_seed
              [New Wire (0, 0, 0) false; New Wire (1, 0, 0) false;
               New Wire (2, 0, 0) false; New PlainBlock (3, 0, 0) false;
               Connect 1%positive; Connect 2%positive; Connect 3%positive;
               Connect 4%positive]
              (0, 0, 0) 10 {[1%positive; 2%positive; 3%positive]} 3%positive)
    as [fuel' Hf]; [vm_compute; reflexivity|set_solver|].
  exists fuel'. exact Hf.
Defined.

(** X13. A wire with no wire stored at any of its four horizontal
    neighbours is a group of its own: [find_wires] at its coordinate
    returns the set holding just that wire. *)
Theorem find_wires_isolated (σ : state) (xyz : coord) (root : oid) :
  circuits σ !! xyz = Some root → is_wire σ root →
  (∀ nb v, nb ∈ horizontal (coords (deref σ root)) →
           circuits σ !! nb = Some v → ¬ is_wire σ v) →
  ∃ fuel, find_wires fuel σ xyz = Done (Some {[root]}).
Proof.
  intros Hl Hw Halone.
  destruct (find_wires_returns σ xyz root Hl Hw) as (fuel & wires & Hf).
  exists fuel. rewrite Hf. do 2 f_equal.
  destruct (find_wires_found σ xyz fuel wires Hf)
    as (root' & Hl' & _ & Hin & Hgrp).
  assert (root' = root) as -> by congruence.
  apply set_eq. intros x. rewrite elem_of_singleton. split; [|by intros ->].
  intros Hx. apply Hgrp in Hx. unfold wire_group in Hx.
  apply rtc_inv in Hx as [->|(y & (_ & Hy & nb & Hnb & Hly) & _)]; [done|].
  destruct (Halone nb y Hnb Hly Hy).
Qed.

Lemma find_wires_isolated_witness :
  ∃ fuel, find_wires fuel torch_on_block (2, 0, 0) = Done (Some {[3%positive]}).
Proof.
  apply (find_wires_isolated torch_on_block (2, 0, 0) 3%positive).
  - vm_compute. reflexivity.
  - vm_compute. reflexivity.
  - intros nb v Hnb.
    replace (horizontal (coords (deref torch_on_block 3%positive)))
      with [(1, 0, 0); (3, 0, 0); (2, 0, -1); (2, 0, 1)] in Hnb
      by (vm_compute; reflexivity).
    rewrite !elem_of_cons, elem_of_nil in Hnb.
    destruct Hnb as [->|[->|[->|[->|[]]]]]; vm_compute; intros [= <-];
      discriminate.
Defined.

(** X14. On an Asic built by any sequence of constructions, [connect] and
    [disconnect] calls, the search stays on the seed's level: every wire
    that [find_wires(x, y, z)] returns has the same [y] coordinate. *)
Theorem find_wires_same_level (prog : list command) (xyz : coord)
    (fuel : nat) (wires : gset oid) (w : oid) :
  let σ := run prog in
  find_wires fuel σ xyz = Done (Some wires) → w ∈ wires →
  (coords (deref σ w)).1.2 = xyz.1.2.
Proof.
  intros σ Hf Hw. destruct (run_placement prog) as (_ & Hk & _). fold σ in Hk.
  destruct (find_wires_found σ xyz fuel wires Hf)
    as (root & Hl & _ & _ & Hgrp).
  apply Hgrp in Hw. rewrite <- (Hk _ _ Hl). revert w Hw. unfold wire_group.
  apply rtc_ind_r; [done|].
  intros y z _ (_ & _ & nb & Hnb & Hlz) <-.
  rewrite (Hk _ _ Hlz). by apply horizontal_level.
Qed.

Lemma find_wires_same_level_witness :
  (coords (deref wire_row 3%positive)).1.2 = 0.
Proof.
  apply (find_wires_same_level
           [New Wire (0, 0, 0) false; New Wire (1, 0, 0) false;
            New Wire (2, 0, 0) false; New PlainBlock (3, 0, 0) false;
            Connect 1%positive; Connect 2%positive; Connect 3%positive;
            Connect 4%positive]
           (0, 0, 0) 10 {[1%positive; 2%positive; 3%positive]} 3%positive).
  - vm_compute. reflexivity.
  - set_solver.
Defined.

(** ** More on the codec *)

(** X15. With different slots for the four blocks, what [to_block] writes
    for a handled block reads back as the circuit's status: [bbool] of the
    pair returned by [truthify_block(truth, block, metadata)] is [truth],
    so [from_block] on the result of [to_block] keeps the status. *)
Theorem bbool_truthify_block (torch torch_off wire lever : Z)
    (truth : bool) (block metadata : Z) (σ : state) (self : oid) :
  distinct_slots torch torch_off wire lever →
  handled torch torch_off wire lever block →
  (let r := truthify_block torch torch_off wire lever truth block metadata in
   bbool torch torch_off wire lever r.1 r.2 = truth) ∧
  (let r := to_block torch torch_off wire lever self block metadata σ in
   status (deref (from_block torch torch_off wire lever self r.1 r.2 σ) self)
   = status (deref σ self)).
Proof.
  intros Hd Hh.
  assert (∀ t, let r := truthify_block torch torch_off wire lever t
                          block metadata in
               bbool torch torch_off wire lever r.1 r.2 = t) as Hread.
  { intros t. unfold distinct_slots in Hd.
    rewrite !NoDup_cons, !not_elem_of_cons in Hd.
    assert (torch ≠ torch_off ∧ torch ≠ wire ∧ torch ≠ lever ∧
            torch_off ≠ wire ∧ torch_off ≠ lever ∧ wire ≠ lever)
      as (Htf & Htw & Htl & Hfw & Hfl & Hwl) by tauto.
    unfold truthify_block, bbool, handled in *. cbv zeta.
    destruct (Z.eqb_spec block torch) as [->|Ht]; cbn [orb].
    { destruct t; cbn [fst snd]; rewrite ?Z.eqb_refl; [done|].
      by destruct (Z.eqb_spec torch_off torch). }
    destruct (Z.eqb_spec block torch_off) as [->|Hf].
    { destruct t; cbn [fst snd]; rewrite ?Z.eqb_refl; [done|].
      by destruct (Z.eqb_spec torch_off torch). }
    destruct (Z.eqb_spec block wire) as [->|Hw].
    { destruct (Z.eqb_spec wire torch); [congruence|].
      destruct (Z.eqb_spec wire torch_off); [congruence|].
      destruct t; cbn [fst snd]; rewrite ?Z.eqb_refl;
        destruct (Z.eqb_spec wire torch); try congruence;
        destruct (Z.eqb_spec wire torch_off); try congruence; [|done].
      destruct (Z.eqb_spec metadata 0) as [->|Hm]; [done|].
      by destruct (Z.eqb_spec metadata 0). }
    destruct (Z.eqb_spec block lever) as [->|Hl]; [|tauto].
    destruct t; cbn [fst snd]; rewrite ?Z.eqb_refl;
      destruct (Z.eqb_spec lever torch); try congruence;
      destruct (Z.eqb_spec lever torch_off); try congruence;
      destruct (Z.eqb_spec lever wire); try congruence.
    - destruct (Z.eqb_spec (Z.land (Z.lor metadata 8) 8) 0) as [Hz|]; [|done].
      exfalso. assert (Z.testbit (Z.land (Z.lor metadata 8) 8) 3 = false)
        as Hb by (rewrite Hz; apply Z.bits_0).
      rewrite Z.land_spec, Z.lor_spec, testbit_8 in Hb by lia.
      rewrite orb_true_r in Hb. discriminate.
    - destruct (Z.eqb_spec (Z.land (Z.land metadata (Z.lnot 8)) 8) 0)
        as [|Hnz]; [done|].
      exfalso. apply Hnz. apply Z.bits_inj'. intros k Hk.
      rewrite !Z.land_spec, Z.lnot_spec, Z.bits_0, testbit_8 by lia.
      destruct (3 =? k); simpl; by rewrite ?andb_false_r. }
  split; [apply Hread|].
  cbv zeta. unfold from_block, to_block. rewrite deref_upd.
  case_decide; [|done]. simpl. apply Hread.
Qed.

Lemma bbool_truthify_block_witness :
  bbool 76 75 55 69 (truthify_block 76 75 55 69 true 69 3).1
                    (truthify_block 76 75 55 69 true 69 3).2 = true.
Proof.
  assert (distinct_slots 76 75 55 69) as Hd.
  { unfold distinct_slots. rewrite !NoDup_cons, !not_elem_of_cons.
    repeat split; try discriminate; try apply not_elem_of_nil;
      apply NoDup_nil_2. }
  assert (handled 76 75 55 69 69) as Hh by (left; reflexivity).
  exact (proj1 (bbool_truthify_block 76 75 55 69 true 69 3 empty_asic
                  1%positive Hd Hh)).
Defined.

(** X16. [truthify_block] is idempotent: applying it again with the same
    truth to the pair it returned gives that pair, whatever the block, the
    metadata and the slots of the block table. *)
Theorem truthify_block_idempotent (torch torch_off wire lever : Z)
    (truth : bool) (block metadata : Z) :
  let r := truthify_block torch torch_off wire lever truth block metadata in
  truthify_block torch torch_off wire lever truth r.1 r.2 = r.
Proof.
  cbv zeta. unfold truthify_block.
  destruct (Z.eqb_spec block torch) as [->|Ht]; cbn [orb].
  { destruct truth; cbn [fst snd]; rewrite ?Z.eqb_refl, ?orb_true_r; done. }
  destruct (Z.eqb_spec block torch_off) as [->|Hf].
  { destruct truth; cbn [fst snd]; rewrite ?Z.eqb_refl, ?orb_true_r; done. }
  destruct (Z.eqb_spec block wire) as [->|Hw].
  { destruct truth; cbn [fst snd];
      destruct (Z.eqb_spec wire torch); try congruence;
      destruct (Z.eqb_spec wire torch_off); try congruence;
      rewrite Z.eqb_refl; cbn [orb]; [|done].
    destruct (Z.eqb_spec metadata 0) as [->|Hm]; [done|].
    by destruct (Z.eqb_spec metadata 0). }
  destruct (Z.eqb_spec block lever) as [->|Hl].
  - destruct truth; cbn [fst snd];
      destruct (Z.eqb_spec lever torch); try congruence;
      destruct (Z.eqb_spec lever torch_off); try congruence;
      destruct (Z.eqb_spec lever wire); try congruence;
      rewrite Z.eqb_refl; cbn [orb]; f_equal.
    + by rewrite <- Z.lor_assoc, Z.lor_diag.
    + by rewrite <- Z.land_assoc, Z.land_diag.
  - cbn [fst snd].
    destruct (Z.eqb_spec block torch); try congruence.
    destruct (Z.eqb_spec block torch_off); try congruence.
    destruct (Z.eqb_spec block wire); try congruence.
    by destruct (Z.eqb_spec block lever).
Qed.

(** X17. [truthify_block] keeps metadata a nibble: metadata between 0 and
    15 comes back between 0 and 15, for every block and truth. *)
Theorem truthify_block_nibble (torch torch_off wire lever : Z)
    (truth : bool) (block metadata : Z) :
  0 ≤ metadata < 16 →
  0 ≤ (truthify_block torch torch_off wire lever truth block metadata).2 < 16.
Proof.
  intros Hm. unfold truthify_block.
  assert (0 ≤ Z.lor metadata 8 < 16 ∧ 0 ≤ Z.land metadata (Z.lnot 8) < 16)
    as [Hor Hand].
  { assert (metadata ∈ map Z.of_nat (seq 0 16)) as Hin.
    { apply list_elem_of_fmap. exists (Z.to_nat metadata).
      split; [lia|]. apply elem_of_seq. lia. }
    simpl in Hin. rewrite !elem_of_cons, elem_of_nil in Hin.
    repeat (destruct Hin as [->|Hin]; [vm_compute; intuition discriminate|]).
    done. }
  repeat case_match; cbn [snd]; lia.
Qed.

Lemma truthify_block_nibble_witness :
  0 ≤ (truthify_block 76 75 55 69 true 69 5).2 < 16.
Proof. apply truthify_block_nibble. lia. Defined.

(** ** [clamp] *)

(** X18. [clamp(x, low, high)] with [low ≤ high] lies between [low] and
    [high], is [x] itself when [x] already does, [low] when [x] is below
    and [high] when [x] is above. *)
Theorem clamp_range (x low high : Z) :
  low ≤ high →
  low ≤ clamp x low high ≤ high ∧
  (low ≤ x ≤ high → clamp x low high = x) ∧
  (x < low → clamp x low high = low) ∧
  (high < x → clamp x low high = high).
Proof. unfold clamp. lia. Qed.

Lemma clamp_range_witness : clamp 300 0 255 = 255.
Proof. apply (clamp_range 300 0 255); lia. Defined.

(** X19. The two definitions of [clamp] in the module agree whenever the
    minimum is at most the maximum; with the bounds swapped the [def]
    returns [high] and the [lambda] it replaces returned [minimum]. *)
Theorem clamp_definitions_agree (x low high : Z) :
  (low ≤ high → clamp_lambda x low high = clamp x low high) ∧
  (high < low → clamp x low high = high ∧ clamp_lambda x low high = low).
Proof. unfold clamp, clamp_lambda. lia. Qed.

Lemma clamp_definitions_agree_witness :
  clamp_lambda 7 0 5 = clamp 7 0 5 ∧ clamp 7 5 0 = 0.
Proof.
  split.
  - apply (proj1 (clamp_definitions_agree 7 0 5)). lia.
  - apply (proj2 (clamp_definitions_agree 7 5 0)). lia.
Defined.

(** X20. [clamp] is idempotent and monotone in [x], for any bounds. *)
Theorem clamp_idempotent_monotone (x x' low high : Z) :
  clamp (clamp x low high) low high = clamp x low high ∧
  (x ≤ x' → clamp x low high ≤ clamp x' low high).
Proof. unfold clamp. lia. Qed.

Lemma clamp_idempotent_monotone_witness : clamp 3 0 10 ≤ clamp 4 0 10.
Proof. apply (proj2 (clamp_idempotent_monotone 3 4 0 10)). lia. Defined.

(** ** What [update] computes *)

Lemma elements_singleton_inv (s : gset oid) i :
  elements s = [i] → s = {[i]}.
Proof.
  intros H. apply set_eq. intros x.
  rewrite <- elem_of_elements, H, list_elem_of_singleton.
  by rewrite elem_of_singleton.
Qed.

(** X24. An [update] that returns leaves the circuit's status equal to its
    gate applied to its inputs, whether or not the status changed: a wire
    or plain block with inputs is on exactly when one of its inputs is on,
    and a torch has a single input and is on exactly when that input is
    off. *)
Theorem update_computes_gate (σ σ' : state) (c : oid) (r : gset oid) :
  update c σ = (σ', Returns r) → inputs (deref σ c) ≠ ∅ →
  (cls (deref σ c) = Wire ∨ cls (deref σ c) = PlainBlock →
   (status (deref σ' c) = true ↔
    ∃ i, i ∈ inputs (deref σ c) ∧ status (deref σ i) = true)) ∧
  (∀ o, cls (deref σ c) = Torch o →
        ∃ i, inputs (deref σ c) = {[i]} ∧
             status (deref σ' c) = negb (status (deref σ i))).
Proof.
  intros Hu Hne. unfold update in Hu.
  destruct (decide (inputs (deref σ c) = ∅)); [contradiction|].
  destruct (op (deref σ c) _) as [st|e] eqn:Hop; [|done].
  assert (status (deref σ' c) = st) as Hst.
  { destruct (eqb (status (deref σ c)) st) eqn:E; simpl in Hu;
      injection Hu as <- _.
    - by apply eqb_prop in E.
    - rewrite deref_upd. by case_decide. }
  rewrite Hst. clear Hu Hst. unfold op in Hop. split.
  - intros Hk.
    assert (st = existsb id (map (λ i, status (deref σ i))
                               (elements (inputs (deref σ c))))) as ->
      by (destruct Hk as [Hk|Hk]; rewrite Hk in Hop; congruence).
    rewrite existsb_exists. split.
    + intros (b & Hin & Hb). apply in_map_iff in Hin as (i & <- & Hin).
      exists i. split; [|done]. by apply elem_of_elements, list_elem_of_In.
    + intros (i & Hin & Hi). exists true. split; [|done].
      apply in_map_iff. exists i. split; [done|].
      by apply list_elem_of_In, elem_of_elements.
  - intros o Hk. rewrite Hk in Hop.
    destruct (elements (inputs (deref σ c))) as [|i [|j l]] eqn:He;
      simpl in Hop; try done.
    exists i. split; [by apply elements_singleton_inv|congruence].
Qed.

Lemma update_computes_gate_witness :
  ∃ i, inputs (deref torch_on_block 2%positive) = {[i]} ∧
       status (deref (update 2%positive torch_on_block).1 2%positive)
       = negb (status (deref torch_on_block i)).
Proof.
  assert (update 2%positive torch_on_block
          = ((update 2%positive torch_on_block).1, Returns {[3%positive]}))
    as Hu by (vm_compute; reflexivity).
  assert (inputs (deref torch_on_block 2%positive) ≠ ∅) as Hne
    by (vm_compute; discriminate).
  apply (proj2 (update_computes_gate _ _ _ _ Hu Hne) "+x").
  vm_compute. reflexivity.
Defined.

(** X25. After any sequence of constructions, [connect] and [disconnect]
    calls, [update] raises only on a torch that has more than one input:
    the exception is the [TypeError] of [operator.not_], the state is left
    unchanged, and wires, plain blocks and levers never raise. *)
Theorem update_raises_only_on_torch (prog : list command) (c : oid)
    (σ' : state) (e : exn) :
  update c (run prog) = (σ', Raises e) →
  σ' = run prog ∧ e = TypeError ∧
  (∃ o, cls (deref (run prog) c) = Torch o) ∧
  (2 ≤ size (inputs (deref (run prog) c)))%nat.
Proof.
  destruct (run_invariant prog) as [_ Ht]. set (σ := run prog) in *.
  unfold update. destruct (decide (inputs (deref σ c) = ∅)); [done|].
  destruct (op (deref σ c) _) as [st|e'] eqn:Hop.
  { by destruct (negb (eqb (status (deref σ c)) st)). }
  intros [= <- <-]. split; [done|].
  unfold op in Hop. unfold size, set_size. simpl.
  destruct (elements (inputs (deref σ c))) as [|i l] eqn:He.
  { apply elements_empty_inv, leibniz_equiv in He. contradiction. }
  destruct (cls (deref σ c)) as [| |o|o] eqn:Hk; try done.
  - destruct l; simpl in Hop; [done|]. injection Hop as <-.
    split; [done|]. split; [by exists o|simpl; lia].
  - exfalso. assert (i ∈ inputs (deref σ c)) as Hi
      by (apply elem_of_elements; rewrite He; left).
    apply Ht, traceables_cases in Hi. rewrite Hk in Hi.
    destruct Hi as [[? ?]|[[? [? ?]]|[[[? ?] ?]|[[? ?] ?]]]]; congruence.
Qed.

Lemma update_raises_only_on_torch_witness :
  (2 ≤ size (inputs (deref torch_then_blocks 1%positive)))%nat.
Proof.
  apply (update_raises_only_on_torch
           [New (Torch "+x") (0, 0, 0) true; New PlainBlock (1, 0, 0) false;
            New PlainBlock (0, 0, 1) false;
            Connect 1%positive; Connect 2%positive; Connect 3%positive]
           1%positive torch_then_blocks TypeError).
  vm_compute. reflexivity.
Defined.

(** ** [morton2] *)

Lemma morton2_spread x y :
  morton2 x y
  = Z.lor (spread (Z.land x 0xffff)) (Z.shiftl (spread (Z.land y 0xffff)) 1).
Proof. reflexivity. Qed.

Lemma all_from_spec n z f :
  all_from n z f = true → ∀ k, z ≤ k < z + Z.of_nat n → f k = true.
Proof.
  revert z. induction n as [|n IH]; intros z H k Hk; [lia|].
  simpl in H. apply andb_true_iff in H as [Hz Hrest].
  destruct (Z.eq_dec k z) as [->|Hne]; [done|].
  apply (IH (z + 1)); [done|lia].
Qed.

Lemma spread_checked : all_from (Z.to_nat 65536) 0 spread_ok = true.
Proof. vm_compute. reflexivity. Qed.

Lemma land_ffff_range x : 0 ≤ Z.land x 0xffff < 65536.
Proof.
  split; [apply Z.land_nonneg; lia|].
  change 0xffff with (Z.ones 16). rewrite Z.land_ones by lia.
  apply Z.mod_pos_bound. lia.
Qed.

Lemma land_ffff_bit x i : 0 ≤ i < 16 → Z.testbit (Z.land x 0xffff) i = Z.testbit x i.
Proof.
  intros Hi. change 0xffff with (Z.ones 16).
  rewrite Z.land_spec, Z.ones_spec_low by lia. apply andb_true_r.
Qed.

Lemma dilate_pos_bits p n :
  0 ≤ n →
  Z.testbit (Zpos (dilate_pos p)) n
  = Z.even n && Z.testbit (Zpos p) (n / 2).
Proof.
  revert n. induction p as [p IH|p IH|]; intros n Hn; simpl dilate_pos.
  - destruct (Z.eq_dec n 0) as [->|H0]; [done|].
    destruct (Z.eq_dec n 1) as [->|H1]; [done|].
    replace n with (Z.succ (Z.succ (n - 2))) at 1 by lia.
    change (Z.pos (dilate_pos p)~0~1) with (2 * (2 * Zpos (dilate_pos p)) + 1).
    rewrite Z.testbit_odd_succ, Z.double_bits_succ, IH by lia.
    replace (n / 2) with (Z.succ ((n - 2) / 2)).
    2:{ replace n with ((n - 2) + 1 * 2) at 2 by lia.
        rewrite Z.div_add by lia. lia. }
    change (Z.pos p~1) with (2 * Zpos p + 1).
    rewrite Z.testbit_odd_succ by (apply Z.div_pos; lia).
    f_equal. replace n with ((n - 2) + 2 * 1) at 2 by lia.
    by rewrite Z.even_add_mul_2.
  - destruct (Z.eq_dec n 0) as [->|H0]; [done|].
    destruct (Z.eq_dec n 1) as [->|H1]; [done|].
    replace n with (Z.succ (Z.succ (n - 2))) at 1 by lia.
    change (Z.pos (dilate_pos p)~0~0) with (2 * (2 * Zpos (dilate_pos p))).
    rewrite !Z.double_bits_succ, IH by lia.
    replace (n / 2) with (Z.succ ((n - 2) / 2)).
    2:{ replace n with ((n - 2) + 1 * 2) at 2 by lia.
        rewrite Z.div_add by lia. lia. }
    change (Z.pos p~0) with (2 * Zpos p).
    rewrite Z.double_bits_succ.
    f_equal. replace n with ((n - 2) + 2 * 1) at 2 by lia.
    by rewrite Z.even_add_mul_2.
  - destruct (Z.eq_dec n 0) as [->|H0]; [done|].
    destruct (Z.eq_dec n 1) as [->|H1]; [done|].
    rewrite (Z.bits_above_log2 1 n) by (simpl; lia).
    rewrite (Z.bits_above_log2 1 (n / 2)); [by rewrite andb_false_r| |].
    + lia.
    + simpl. apply Z.div_str_pos. lia.
Qed.

Lemma spread_spec g :
  0 ≤ g < 65536 →
  0 ≤ spread g < 2 ^ 32 ∧
  ∀ n, 0 ≤ n →
       Z.testbit (spread g) n = Z.even n && Z.testbit g (n / 2).
Proof.
  intros Hg.
  assert (spread_ok g = true) as Hok
    by (apply (all_from_spec _ _ _ spread_checked); rewrite Z2Nat.id; lia).
  unfold spread_ok in Hok. apply andb_true_iff in Hok as [Heq Hhi].
  apply Z.eqb_eq in Heq. apply Z.ltb_lt in Hhi. rewrite Heq in *.
  split.
  - split; [|exact Hhi]. destruct g; simpl; lia.
  - intros n Hn. destruct g as [|p|p]; [|by apply dilate_pos_bits|lia].
    simpl. by rewrite !Z.bits_0, andb_false_r.
Qed.

Lemma morton2_bits_of x y i :
  0 ≤ i < 16 →
  Z.testbit (morton2 x y) (2 * i) = Z.testbit x i ∧
  Z.testbit (morton2 x y) (2 * i + 1) = Z.testbit y i.
Proof.
  intros Hi. rewrite morton2_spread.
  destruct (spread_spec _ (land_ffff_range x)) as [_ Hx].
  destruct (spread_spec _ (land_ffff_range y)) as [_ Hy].
  set (a := spread (Z.land x 0xffff)) in *.
  set (b := spread (Z.land y 0xffff)) in *.
  assert (Z.even (2 * i) = true) as He
    by (apply Z.even_spec; by exists i).
  assert (Z.even (2 * i + 1) = false) as Ho
    by (rewrite Z.add_comm, Z.even_add_mul_2; reflexivity).
  assert (2 * i / 2 = i) as Hd
    by (symmetry; apply Z.div_unique_exact; lia).
  assert (Z.testbit b (2 * i - 1) = false) as Hb.
  { destruct (Z.eq_dec i 0) as [->|Hne]; [by apply Z.testbit_neg_r|].
    rewrite Hy by lia. replace (2 * i - 1) with (1 + 2 * (i - 1)) by lia.
    by rewrite Z.even_add_mul_2. }
  rewrite !Z.lor_spec, !Z.shiftl_spec by lia.
  replace (2 * i + 1 - 1) with (2 * i) by lia.
  rewrite Hb, (Hx (2 * i)), (Hx (2 * i + 1)), (Hy (2 * i)) by lia.
  rewrite He, Ho, Hd. cbn [andb orb]. rewrite !land_ffff_bit by lia.
  split; [apply orb_false_r|reflexivity].
Qed.

(** X21. [morton2] interleaves the low 16 bits of its arguments: bit [2i]
    of [morton2(x, y)] is bit [i] of [x] and bit [2i + 1] is bit [i] of
    [y], for [i] from 0 to 15 and any integers [x] and [y]. *)
Theorem morton2_interleaves (x y i : Z) :
  0 ≤ i < 16 →
  Z.testbit (morton2 x y) (2 * i) = Z.testbit x i ∧
  Z.testbit (morton2 x y) (2 * i + 1) = Z.testbit y i.
Proof. apply morton2_bits_of. Qed.

Lemma morton2_interleaves_witness :
  Z.testbit (morton2 5 3) (2 * 2) = Z.testbit 5 2.
Proof. apply (morton2_interleaves 5 3 2). lia. Defined.

(** X22. [morton2] returns a 32-bit unsigned number and depends on the low
    16 bits of each argument only. *)
Theorem morton2_range (x y : Z) :
  0 ≤ morton2 x y < 2 ^ 32 ∧
  morton2 x y = morton2 (x mod 65536) (y mod 65536).
Proof.
  split.
  - rewrite morton2_spread.
    destruct (spread_spec _ (land_ffff_range x)) as [[Hx0 Hx1] _].
    destruct (spread_spec _ (land_ffff_range y)) as [[Hy0 Hy1] _].
    set (a := spread (Z.land x 0xffff)) in *.
    set (b := spread (Z.land y 0xffff)) in *.
    assert (0 ≤ Z.shiftl b 1 < 2 ^ 33) as Hb
      by (rewrite Z.shiftl_mul_pow2 by lia; lia).
    assert (0 ≤ Z.lor a (Z.shiftl b 1)) as Hnn
      by (apply Z.lor_nonneg; lia).
    split; [done|].
    destruct (Z.eq_dec (Z.lor a (Z.shiftl b 1)) 0) as [->|Hnz]; [lia|].
    apply Z.log2_lt_pow2; [lia|]. rewrite Z.log2_lor by lia.
    assert (Z.log2 a < 32).
    { destruct (Z.eq_dec a 0) as [->|]; [simpl; lia|].
      apply Z.log2_lt_pow2; lia. }
    assert (Z.log2 (Z.shiftl b 1) < 32); [|lia].
    destruct (Z.eq_dec b 0) as [->|Hb0]; [simpl; lia|].
    rewrite Z.log2_shiftl by lia.
    destruct (spread_spec _ (land_ffff_range y)) as [_ Hy].
    fold b in Hy.
    destruct (Z.lt_ge_cases (Z.log2 b) 31) as [|Hge]; [lia|exfalso].
    assert (Z.log2 b < 32) by (apply Z.log2_lt_pow2; lia).
    assert (Z.testbit b 31 = true) as Htop.
    { replace 31 with (Z.log2 b) by lia. apply Z.bit_log2. lia. }
    rewrite Hy in Htop by lia. discriminate.
  - rewrite !morton2_spread. change 0xffff with (Z.ones 16).
    rewrite !Z.land_ones by lia. change (2 ^ 16) with 65536.
    by rewrite !Z.mod_mod by lia.
Qed.

(** X23. [morton2] is injective on 16-bit coordinates: equal Morton
    numbers come from arguments with equal low 16 bits. *)
Theorem morton2_injective (x y x' y' : Z) :
  morton2 x y = morton2 x' y' →
  x mod 65536 = x' mod 65536 ∧ y mod 65536 = y' mod 65536.
Proof.
  intros Heq.
  assert (∀ i, 0 ≤ i < 16 → Z.testbit x i = Z.testbit x' i ∧
                            Z.testbit y i = Z.testbit y' i) as Hbits.
  { intros i Hi.
    destruct (morton2_bits_of x y i Hi) as [<- <-].
    destruct (morton2_bits_of x' y' i Hi) as [<- <-].
    by rewrite Heq. }
  change 65536 with (2 ^ 16). rewrite <- !Z.land_ones by lia.
  split; apply Z.bits_inj'; intros n Hn; rewrite !Z.land_spec;
    destruct (Z.ltb_spec n 16) as [Hlt|Hge];
    try (rewrite !Z.ones_spec_high by lia; by rewrite !andb_false_r);
    rewrite !Z.ones_spec_low, !andb_true_r by lia; by apply Hbits.
Qed.

Lemma morton2_injective_witness : 5 mod 65536 = 65541 mod 65536.
Proof. apply (morton2_injective 5 3 65541 3). vm_compute. reflexivity. Defined.
